(** * OpenPNM: hierarchical property resolution and the Fickian solver

    A shallow embedding of [OpenPNM/Phases/__GenericPhase__.py] and
    [OpenPNM/Algorithms/__FickianDiffusion__.py].

    Python objects live in a heap indexed by object identity, because
    Phases, Physics providers and component Phases are shared by
    reference and mutated in place.  Every method is a computation in a
    small state-and-exception monad over that heap and the logger's
    output. *)

From Stdlib Require Import String List Arith Lia QArith Qcanon.
From stdpp Require Import base option list gmap strings.

Set Default Proof Using "Type".
Open Scope string_scope.
Open Scope list_scope.

(** ** Array elements

    The entries of a numpy array.  The code only ever combines them with
    the arithmetic operators, so the development is parametric in the
    element type and its operations. *)
Class Num (V : Type) := {
  f0 : V;
  f1 : V;
  fadd : V → V → V;
  fsub : V → V → V;
  fmul : V → V → V;
  fdiv : V → V → V
}.

(** The rationals, one number type among others: the instance the
    statements below, all of them stated for any number type, are
    exercised on.  numpy's float64, with its rounding and its division
    by zero, is another; no statement relies on the laws of a field. *)
#[export] Instance Qc_Num : Num Qc := {|
  f0 := 0%Qc;
  f1 := 1%Qc;
  fadd := Qcplus;
  fsub := Qcminus;
  fmul := Qcmult;
  fdiv := Qcdiv
|}.

(** ** Base: the object model shared by every Core subclass *)
Module Base.

(** Object identity ([id(obj)] in Python). *)
Definition oid := nat.

Inductive level := DEBUG | INFO | ERROR.

(** The exceptions the modelled code can raise. *)
Inductive exn :=
| MissingProperty (key : string)
| InvalidKey (key : string)
| AttributeError
| ValueError
| BoundaryConditionError
| SingularMatrixError.

(** The two index domains of a network: nodes and edges. *)
Inductive element := pore | throat.

(** [prop.split('.')[0]], restricted to the two legal domains. *)
Definition element_of (key : string) : option element :=
  if String.prefix "pore." key then Some pore
  else if String.prefix "throat." key then Some throat
  else None.

Section Objects.
Context {V : Type} `{Num V}.

(** A [Core] instance: the dict itself ([store]) plus the attributes the
    modelled methods read.  [Np]/[Nt] are the node and edge counts of the
    network the object is attached to; [Ps]/[Ts] are the node and edge
    ids a provider owns; [conns] are the two end nodes of every edge of
    a network, by edge id. *)
Record Core := mkCore {
  name : string;
  store : gmap string (list V);
  Np : nat;
  Nt : nat;
  _net : oid;
  _phases : list oid;
  _physics : list oid;
  Ps : list nat;
  Ts : list nat;
  conns : list (nat * nat)
}.

(** What a Python expression over arrays evaluates to: a numpy scalar or
    a one-dimensional array. *)
Inductive pyval :=
| Scalar (v : V)
| Array (a : list V).

Record World := mkWorld {
  heap : gmap oid Core;
  log : list (level * string)
}.

(** State and exceptions: an exception keeps the state reached so far,
    as in Python. *)
Definition M (A : Type) : Type := World → (exn + A) * World.

#[export] Instance M_ret : MRet M := λ A x w, (inr x, w).
#[export] Instance M_bind : MBind M := λ A B f m w,
  match m w with
  | (inr x, w') => f x w'
  | (inl e, w') => (inl e, w')
  end.

Definition raise {A} (e : exn) : M A := λ w, (inl e, w).

(** [try: m except: h] *)
Definition try_except {A} (m : M A) (h : exn → M A) : M A := λ w,
  match m w with
  | (inl e, w') => h e w'
  | r => r
  end.

(** [self._logger.<lvl>(msg)] *)
Definition logger (lvl : level) (msg : string) : M unit := λ w,
  (inr tt, {| heap := heap w; log := log w ++ [(lvl, msg)] |}).

(** Following a reference.  A reference to no object stands for an
    argument that lacks the attribute being read. *)
Definition deref (o : oid) : M Core := λ w,
  match heap w !! o with
  | Some c => (inr c, w)
  | None => (inl AttributeError, w)
  end.

(** In-place update of one object. *)
Definition update (o : oid) (f : Core → Core) : M unit := λ w,
  (inr tt, {| heap := alter f o (heap w); log := log w |}).

Definition count (o : Core) (e : element) : nat :=
  match e with pore => Np o | throat => Nt o end.

Definition owned (p : Core) (e : element) : list nat :=
  match e with pore => Ps p | throat => Ts p end.

(** [out[ids] = vals]: the k-th value goes to position [ids[k]].
    Positions outside [out] and values without a partner are not
    written. *)
Definition scatter (out : list V) (ids : list nat) (vals : list V) : list V :=
  foldl (λ acc iv, <[iv.1 := iv.2]> acc) out (zip ids vals).

Fixpoint interleave_loop (key : string) (e : element) (sources : list oid)
    (out : list V) : M (list V) :=
  match sources with
  | [] => mret out
  | s :: rest =>
      p ← deref s;
      match store p !! key with
      | None => raise (MissingProperty key)
      | Some vals => interleave_loop key e rest (scatter out (owned p e) vals)
      end
  end.

(** Modelled from the spec: [Core._interleave_data] is not under src/.
    Section 4.1: iterate the providers in registration order; read [key]
    from each provider's own store, failing with [MissingProperty] when
    it is absent; write the provider's values at the provider's owned
    ids of a full-length array; indices no provider covers keep the
    sentinel zero. *)
Definition _interleave_data (self : oid) (key : string) (sources : list oid)
    : M (list V) :=
  o ← deref self;
  match element_of key with
  | None => raise (InvalidKey key)
  | Some e => interleave_loop key e sources (replicate (count o e) f0)
  end.

(** The objects behind a list of references, when all of them exist. *)
Definition providers (w : World) (ids : list oid) : option (list Core) :=
  mapM (λ i, heap w !! i) ids.

(** Every write the providers [ps] issue for [key], in registration
    order, as (position, value) pairs. *)
Definition writes (key : string) (e : element) (ps : list Core) : list (nat * V) :=
  ps ≫= λ p, zip (owned p e) (default [] (store p !! key)).

(** The value position [i] holds once the writes [ws] have been applied
    in order: that of the last write addressed to [i], if there is one. *)
Definition last_write (i : nat) (ws : list (nat * V)) : option V :=
  foldl (λ acc iv, if decide (iv.1 = i) then Some iv.2 else acc) None ws.

(** Section 4.1 read position by position: every provider must carry the
    key; position [i] of the result holds the value of the last write
    addressed to it, and the sentinel zero when no provider covers it. *)
Definition resolve (key : string) (e : element) (n : nat) (ps : list Core)
    : exn + list V :=
  if decide (Forall (λ p, is_Some (store p !! key)) ps)
  then inr ((λ i, default f0 (last_write i (writes key e ps))) <$> seq 0 n)
  else inl (MissingProperty key).

(** numpy broadcasting of a binary operator over two one-dimensional
    arrays: equal lengths combine elementwise, a length-one operand is
    stretched, anything else is refused. *)
Definition broadcast (op : V → V → V) (a b : list V) : option (list V) :=
  if decide (length a = length b) then Some (zip_with op a b)
  else match a, b with
       | [x], _ => Some (map (op x) b)
       | _, [y] => Some (map (λ x, op x y) a)
       | _, _ => None
       end.

Definition np_binop (op : V → V → V) (a b : pyval) : M pyval :=
  match a, b with
  | Scalar x, Scalar y => mret (Scalar (op x y))
  | Scalar x, Array ys => mret (Array (map (op x) ys))
  | Array xs, Scalar y => mret (Array (map (λ x, op x y) xs))
  | Array xs, Array ys =>
      match broadcast op xs ys with
      | Some r => mret (Array r)
      | None => raise ValueError
      end
  end.

(** [a + b] on two arrays. *)
Definition np_add (a b : list V) : M (list V) :=
  match broadcast fadd a b with
  | Some r => mret r
  | None => raise ValueError
  end.

End Objects.
Arguments Core V : clear implicits.
Arguments World V : clear implicits.
Arguments pyval V : clear implicits.
Arguments M V A : clear implicits.

#[export] Instance exn_eq_dec : EqDecision exn.
Proof. solve_decision. Defined.

#[export] Instance pyval_eq_dec {V : Type} `{EqDecision V} : EqDecision (pyval V).
Proof. solve_decision. Defined.

#[export] Instance level_eq_dec : EqDecision level.
Proof. solve_decision. Defined.

#[export] Instance Core_eq_dec {V : Type} `{EqDecision V} : EqDecision (Core V).
Proof. solve_decision. Defined.

#[export] Instance World_eq_dec {V : Type} `{EqDecision V} : EqDecision (World V).
Proof. solve_decision. Defined.

End Base.

(** ** GenericPhase *)
Module GenericPhase.
Import Base.

Section Methods.
Context {V : Type} `{Num V}.

(** [Core.__setitem__], the parent's write, is not under src/. *)
Variable Core___setitem__ : oid → string → pyval V → M V unit.

(** [Core.__eq__], which [list.remove] falls back on for two distinct
    objects, is not under src/.  It compares the two objects and may
    raise. *)
Variable Core___eq__ : Core V → Core V → exn + bool.

Fixpoint setitem_loop (self : oid) (prop : string) (value : pyval V)
    (physics : list oid) : M V unit :=
  match physics with
  | [] => Core___setitem__ self prop value
  | phys :: rest =>
      p ← deref phys;
      match store p !! prop with
      | Some _ =>
          logger ERROR
            (prop +:+ " is already defined in at least one associated Geometry object")
      | None => setitem_loop self prop value rest
      end
  end.

Definition __setitem__ (self : oid) (prop : string) (value : pyval V) : M V unit :=
  o ← deref self;
  setitem_loop self prop value (_physics o).

Definition __getitem__ (self : oid) (key : string) : M V (list V) :=
  o ← deref self;
  match store o !! key with
  | None =>
      _ ← logger DEBUG (key +:+ " not on Phase, constructing data from Physics");
      _interleave_data self key (_physics o)
  | Some v => mret v
  end.

Fixpoint names (l : list oid) : M V (list string) :=
  match l with
  | [] => mret []
  | item :: rest =>
      c ← deref item;
      ns ← names rest;
      mret (name c :: ns)
  end.

(** Modelled from the spec: [Core.phases] is not under src/.  Its only
    use tests [phase.name in self.phases()]: the names of the registered
    component Phases, in registration order. *)
Definition phases (self : oid) : M V (list string) :=
  o ← deref self;
  names (_phases o).

(** [l.remove(x)]: drops the first item that is [x] itself or compares
    equal to it; [ValueError] when there is none.  The list is only
    changed when the search succeeds. *)
Fixpoint list_remove (x : oid) (l : list oid) : M V (list oid) :=
  match l with
  | [] => raise ValueError
  | y :: rest =>
      if decide (y = x) then mret rest
      else
        cy ← deref y;
        cx ← deref x;
        match Core___eq__ cy cx with
        | inl e => raise e
        | inr true => mret rest
        | inr false => r ← list_remove x rest; mret (y :: r)
        end
  end.

Definition set_phases (l : list oid) (o : Core V) : Core V :=
  {| name := name o; store := store o; Np := Np o; Nt := Nt o;
     _net := _net o; _phases := l; _physics := _physics o;
     Ps := Ps o; Ts := Ts o; conns := conns o |}.

Definition set_component (self phase : oid) (mode : string) : M V unit :=
  if decide (mode = "add") then
    ph ← deref phase;
    ns ← phases self;
    if decide (name ph ∈ ns) then logger ERROR "Phase already present"
    else
      o ← deref self;
      update self (set_phases (_phases o ++ [phase]))
  else if decide (mode = "remove") then
    ph ← deref phase;
    ns ← phases self;
    if decide (name ph ∈ ns) then
      o ← deref self;
      l ← list_remove phase (_phases o);
      update self (set_phases l)
    else logger ERROR "Phase not found"
  else mret tt.

(** The names of the components registered on [self], read off the
    heap. *)
Definition component_names (w : World V) (self : oid) : option (list string) :=
  match heap w !! self with
  | Some o =>
      match providers w (_phases o) with
      | Some cs => Some (map name cs)
      | None => None
      end
  | None => None
  end.

Fixpoint mixture_loop (comps : list oid) (mole_sum : list V) : M V (list V) :=
  match comps with
  | [] => mret mole_sum
  | comp :: rest =>
      s ← try_except
            (x ← __getitem__ comp "pore.mole_fraction"; np_add mole_sum x)
            (λ _, mret mole_sum);
      mixture_loop rest s
  end.

Definition check_mixture_health (self : oid) : M V (list V) :=
  o ← deref self;
  mixture_loop (_phases o) (replicate (Np o) f0).

(** The arrays the components answer ['pore.mole_fraction'] with, in
    registration order, leaving out the components on which the read
    fails. *)
Definition mole_fractions (w : World V) (comps : list oid) : list (list V) :=
  omap (λ comp, match (__getitem__ comp "pore.mole_fraction" w).1 with
                | inr a => Some a
                | inl _ => None
                end) comps.

(** The entrywise sum of arrays of length [n]. *)
Definition elementwise_sum (n : nat) (arrs : list (list V)) : list V :=
  foldl (zip_with fadd) (replicate n f0) arrs.

End Methods.

Section Regenerate.
Context {V : Type} `{Num V}.

(** The keyword arguments, handed on unchanged to every call. *)
Context {K : Type}.

(** [Core.regenerate], the parent's method, is not under src/. *)
Variable Core_regenerate : K → oid → M V unit.

(** The outcome of a computation that recurses: [None] when the budget
    of nested calls and loop steps is used up before it returns. *)
Definition outcome : Type := option ((exn + unit) * World V).

(** [for item in self._phases: body(item)].  Python's list iterator
    reads the list again at every step, so items appended or removed
    while the loop runs are seen. *)
Fixpoint for_items (fuel : nat) (body : oid → World V → outcome)
    (self : oid) (i : nat) (w : World V) : outcome :=
  match fuel with
  | O => None
  | S fuel =>
      match heap w !! self with
      | None => Some (inl AttributeError, w)
      | Some o =>
          match _phases o !! i with
          | None => Some (inr tt, w)
          | Some item =>
              match body item w with
              | Some (inr _, w') => for_items fuel body self (S i) w'
              | r => r
              end
          end
      end
  end.

Fixpoint regenerate (fuel : nat) (kwargs : K) (self : oid) (w : World V)
    : outcome :=
  match fuel with
  | O => None
  | S fuel =>
      match for_items fuel (regenerate fuel kwargs) self 0 w with
      | Some (inr _, w') => Some (Core_regenerate kwargs self w')
      | r => r
      end
  end.

(** The parent's method applied to the objects of a list, one after the
    other, stopping at the first exception. *)
Fixpoint regenerate_each (kwargs : K) (l : list oid) : M V unit :=
  match l with
  | [] => mret tt
  | x :: l => _ ← Core_regenerate kwargs x; regenerate_each kwargs l
  end.

(** The component tree below [self] in post-order, cut at depth [n]:
    the components, each with its own components first, then [self]. *)
Fixpoint postorder (n : nat) (h : gmap oid (Core V)) (self : oid) : list oid :=
  match n with
  | O => []
  | S n =>
      match h !! self with
      | Some o => (_phases o ≫= postorder n h) ++ [self]
      | None => []
      end
  end.

(** The components below [self] form a tree that [n] nested calls, each
    looping over fewer than [n] components, can walk. *)
Fixpoint walkable (n : nat) (h : gmap oid (Core V)) (self : oid) : Prop :=
  match n with
  | O => False
  | S n =>
      match h !! self with
      | Some o => length (_phases o) < n ∧ Forall (walkable n h) (_phases o)
      | None => False
      end
  end.

(** Two heaps hold the same objects with the same component lists. *)
Definition same_components (h h' : gmap oid (Core V)) : Prop :=
  ∀ i, _phases <$> h' !! i = _phases <$> h !! i.

End Regenerate.
End GenericPhase.

(** ** LinearSolver

    The base class of the transport algorithms is not under src/; what
    [FickianDiffusion] inherits from it is modelled from section 4.2 and
    4.3 of the spec. *)
Module LinearSolver.
Import Base.

Section Solver.
Context {V : Type} `{Num V}.

(** A record of the boundary-condition registry. *)
Inductive BC :=
| value_BC (v : V)
| rate_BC (v : V)
| outflow_BC.

(** An algorithm object: the network and phase it is bound to, the two
    names given at [setup], the boundary-condition registry (at most one
    record per node), its own property store and the attribute
    [_eff_property]. *)
Record Alg := mkAlg {
  alg_net : oid;
  _fluid : oid;
  _conductance : string;
  _quantity : string;
  bcs : gmap nat BC;
  alg_store : gmap string (list V);
  _eff_property : option (pyval V)
}.

(** The sparse system: an entry that was never written is zero. *)
Definition Mat : Type := nat → nat → V.
Definition Vec : Type := nat → V.

Definition mat_set (A : Mat) (i j : nat) (v : V) : Mat :=
  λ i' j', if decide (i' = i ∧ j' = j) then v else A i' j'.

Definition vec_set (b : Vec) (i : nat) (v : V) : Vec :=
  λ i', if decide (i' = i) then v else b i'.

Definition vec_of (x : list V) : Vec := λ i, default f0 (x !! i).

(** Step 1, one edge (i,j) of conductance g: subtract g from [A[i,j]] and
    [A[j,i]], add g to [A[i,i]] and [A[j,j]]. *)
Definition add_edge (A : Mat) (e : nat * nat * V) : Mat :=
  let '(i, j, g) := e in
  let A := mat_set A i j (fsub (A i j) g) in
  let A := mat_set A j i (fsub (A j i) g) in
  let A := mat_set A i i (fadd (A i i) g) in
  mat_set A j j (fadd (A j j) g).

Definition step1 (cn : list (nat * nat)) (g : list V) : Mat * Vec :=
  (foldl add_edge (λ _ _, f0) (zip cn g), λ _, f0).

(** The other end of every edge at node [i]. *)
Definition neighbours (cn : list (nat * nat)) (i : nat) : list nat :=
  omap (λ ab : nat * nat,
          if decide (ab.1 = i ∧ ab.2 ≠ i) then Some ab.2
          else if decide (ab.2 = i ∧ ab.1 ≠ i) then Some ab.1
          else None) cn.

(** Step 2, one Dirichlet node: zero row [i], put 1 on the diagonal and
    the value in [b[i]]; then for every neighbour [j] subtract
    [A[j,i] * value] from [b[j]] and zero [A[j,i]]. *)
Definition eliminate (i : nat) (v : V) (Ab : Mat * Vec) (j : nat) : Mat * Vec :=
  (mat_set Ab.1 j i f0, vec_set Ab.2 j (fsub (Ab.2 j) (fmul (Ab.1 j i) v))).

Definition dirichlet (cn : list (nat * nat)) (i : nat) (v : V) (Ab : Mat * Vec)
    : Mat * Vec :=
  let A0 : Mat := λ i' j', if decide (i' = i) then f0 else Ab.1 i' j' in
  foldl (eliminate i v) (mat_set A0 i i f1, vec_set Ab.2 i v) (neighbours cn i).

(** Step 3, one Neumann node: add the value to [b[i]]. *)
Definition neumann (i : nat) (v : V) (Ab : Mat * Vec) : Mat * Vec :=
  (Ab.1, vec_set Ab.2 i (fadd (Ab.2 i) v)).

(** Step 4 depends on the convective coefficients of the
    advection-diffusion variants, which the spec does not pin down; the
    treatment of one outflow node is left open. *)
Variable outflow : list (nat * nat) → nat → Mat * Vec → Mat * Vec.

(** One pass over the nodes, in increasing node id. *)
Definition for_each_node (n : nat) (reg : gmap nat BC)
    (f : nat → BC → Mat * Vec → Mat * Vec) (Ab : Mat * Vec) : Mat * Vec :=
  foldl (λ Ab i, match reg !! i with Some bc => f i bc Ab | None => Ab end)
        Ab (seq 0 n).

(** Steps 1 to 4 of [run]. *)
Definition assemble (cn : list (nat * nat)) (n : nat) (g : list V)
    (reg : gmap nat BC) : Mat * Vec :=
  let Ab := step1 cn g in
  let Ab := for_each_node n reg
              (λ i bc Ab, match bc with value_BC v => dirichlet cn i v Ab | _ => Ab end) Ab in
  let Ab := for_each_node n reg
              (λ i bc Ab, match bc with rate_BC v => neumann i v Ab | _ => Ab end) Ab in
  for_each_node n reg
    (λ i bc Ab, match bc with outflow_BC => outflow cn i Ab | _ => Ab end) Ab.

(** Step 5 hands the system to a general sparse solver, which answers
    with the field or reports a singular system. *)
Variable solve : nat → Mat → Vec → option (list V).

Definition set_quantity (x : list V) (a : Alg) : Alg :=
  {| alg_net := alg_net a; _fluid := _fluid a; _conductance := _conductance a;
     _quantity := _quantity a; bcs := bcs a;
     alg_store := <[_quantity a := x]> (alg_store a);
     _eff_property := _eff_property a |}.

Definition set_eff_property (r : pyval V) (a : Alg) : Alg :=
  {| alg_net := alg_net a; _fluid := _fluid a; _conductance := _conductance a;
     _quantity := _quantity a; bcs := bcs a; alg_store := alg_store a;
     _eff_property := Some r |}.

(** Modelled from the spec: [LinearSolver.run] is not under src/.
    Section 4.2: pull the conductance array through the phase, build the
    system (steps 1 to 4), solve it (step 5) and store the field under
    the quantity key of the algorithm's own store (step 6). *)
Definition run (self : Alg) : M V Alg :=
  net ← deref (alg_net self);
  g ← GenericPhase.__getitem__ (_fluid self) (_conductance self);
  match solve (Np net) (assemble (conns net) (Np net) g (bcs self)).1
                       (assemble (conns net) (Np net) g (bcs self)).2 with
  | None => raise SingularMatrixError
  | Some x => mret (set_quantity x self)
  end.

(** The flux one edge carries out of the inlet set. *)
Definition edge_flux (inlets : list nat) (x : Vec) (e : nat * nat * V) : V :=
  let '(i, j, g) := e in
  if decide (i ∈ inlets ∧ j ∉ inlets) then fmul g (fsub (x i) (x j))
  else if decide (j ∈ inlets ∧ i ∉ inlets) then fmul g (fsub (x j) (x i))
  else f0.

Definition inlet_flux (cn : list (nat * nat)) (g : list V) (inlets : list nat)
    (x : Vec) : V :=
  foldl (λ acc e, fadd acc (edge_flux inlets x e)) f0 (zip cn g).

(** How the inlet node set and the driving difference are read off the
    network and the registry is not said in the spec; [None] stands for
    fewer than two node sets holding Dirichlet conditions. *)
Variable designate : Core V → gmap nat BC → option (list nat * V).

(** Modelled from the spec: [LinearSolver._calc_eff_prop] is not under
    src/.  Section 4.3: the total conductance-weighted flux crossing the
    designated inlet node set, divided by the driving boundary-value
    difference; [BoundaryConditionError] when fewer than two node sets
    hold Dirichlet conditions or the conductance is undefined.  Before
    any run there is no field to read under the quantity key. *)
Definition _calc_eff_prop (self : Alg) : M V (pyval V) :=
  net ← deref (alg_net self);
  match alg_store self !! _quantity self with
  | None => raise (MissingProperty (_quantity self))
  | Some x =>
      match designate net (bcs self) with
      | None => raise BoundaryConditionError
      | Some (inlets, dv) =>
          g ← try_except
                (GenericPhase.__getitem__ (_fluid self) (_conductance self))
                (λ _, raise BoundaryConditionError);
          mret (Scalar (fdiv (inlet_flux (conns net) g inlets (vec_of x)) dv))
      end
  end.

End Solver.
Arguments BC V : clear implicits.
Arguments Alg V : clear implicits.
Arguments Mat V : clear implicits.
Arguments Vec V : clear implicits.

#[export] Instance BC_eq_dec {V : Type} `{EqDecision V} : EqDecision (BC V).
Proof. solve_decision. Defined.

#[export] Instance Alg_eq_dec {V : Type} `{EqDecision V} : EqDecision (Alg V).
Proof. solve_decision. Defined.

End LinearSolver.

(** ** FickianDiffusion *)
Module FickianDiffusion.
Import Base LinearSolver.

Section Methods.
Context {V : Type} `{Num V}.

(** [LinearSolver._calc_eff_prop], inherited, is not under src/. *)
Variable _calc_eff_prop : Alg V → M V (pyval V).

Definition calc_eff_diffusivity (self : Alg V) (clean : bool)
    : M V (pyval V * Alg V) :=
  D_normal ← _calc_eff_prop self;
  rho ← GenericPhase.__getitem__ (_fluid self) "pore.molar_density";
  r ← np_binop fdiv D_normal (Array rho);
  mret (r, set_eff_property r self).

End Methods.

End FickianDiffusion.

(** ** A small simulation used to exercise the statements

    A row of four pores joined by three throats.  The phase [air]
    (object 1) keeps its molar density itself and leaves the throat
    conductance to two Physics providers, [phys_a] on the left half and
    [phys_b] on the right half. *)
Module Fixture.
Import Base.

Definition q (n : Z) (d : positive) : Qc := Q2Qc (n # d).

Definition net : Core Qc :=
  {| name := "net"; store := ∅; Np := 4; Nt := 3; _net := 0;
     _phases := [1]; _physics := []; Ps := [0; 1; 2; 3]; Ts := [0; 1; 2];
     conns := [(0, 1); (1, 2); (2, 3)] |}.

Definition air : Core Qc :=
  {| name := "air";
     store := {[ "pore.molar_density" := [q 40 1; q 40 1; q 41 1; q 41 1] ]};
     Np := 4; Nt := 3; _net := 0;
     _phases := []; _physics := [2; 3]; Ps := [0; 1; 2; 3]; Ts := [0; 1; 2];
     conns := [] |}.

Definition phys_a : Core Qc :=
  {| name := "phys_a";
     store := {[ "throat.diffusive_conductance" := [q 1 2; q 3 1] ]};
     Np := 4; Nt := 3; _net := 0;
     _phases := []; _physics := []; Ps := [0; 1]; Ts := [0; 1];
     conns := [] |}.

Definition phys_b : Core Qc :=
  {| name := "phys_b";
     store := {[ "throat.diffusive_conductance" := [q 5 1] ]};
     Np := 4; Nt := 3; _net := 0;
     _phases := []; _physics := []; Ps := [2; 3]; Ts := [2];
     conns := [] |}.

(** A mixture [gas] (object 4) on the same network, made of [air], which
    carries no mole fraction, and of the pure components [N2] and [O2]. *)
Definition gas : Core Qc :=
  {| name := "gas"; store := ∅; Np := 4; Nt := 3; _net := 0;
     _phases := [1; 5; 6]; _physics := []; Ps := [0; 1; 2; 3]; Ts := [0; 1; 2];
     conns := [] |}.

Definition N2 : Core Qc :=
  {| name := "N2";
     store := {[ "pore.mole_fraction" := [q 4 5; q 4 5; q 3 4; q 3 4] ]};
     Np := 4; Nt := 3; _net := 0;
     _phases := []; _physics := []; Ps := [0; 1; 2; 3]; Ts := [0; 1; 2];
     conns := [] |}.

Definition O2 : Core Qc :=
  {| name := "O2";
     store := {[ "pore.mole_fraction" := [q 1 5; q 1 5; q 1 4; q 1 4] ]};
     Np := 4; Nt := 3; _net := 0;
     _phases := []; _physics := []; Ps := [0; 1; 2; 3]; Ts := [0; 1; 2];
     conns := [] |}.

(** A pure component that is not part of the mixture yet. *)
Definition CO2 : Core Qc :=
  {| name := "CO2"; store := ∅; Np := 4; Nt := 3; _net := 0;
     _phases := []; _physics := []; Ps := [0; 1; 2; 3]; Ts := [0; 1; 2];
     conns := [] |}.

Definition world : World Qc :=
  {| heap := {[ 0 := net; 1 := air; 2 := phys_a; 3 := phys_b;
                4 := gas; 5 := N2; 6 := O2; 7 := CO2 ]};
     log := [] |}.

(** A parent write that stores the array as it is and stretches a
    scalar over the pores. *)
Definition store_value (self : oid) (prop : string) (value : pyval Qc) : M Qc unit :=
  update self (λ o,
    {| name := name o;
       store := <[prop := match value with
                          | Array a => a
                          | Scalar v => replicate (Np o) v
                          end]> (store o);
       Np := Np o; Nt := Nt o; _net := _net o; _phases := _phases o;
       _physics := _physics o; Ps := Ps o; Ts := Ts o; conns := conns o |}).

(** A comparison under which two distinct objects are never equal. *)
Definition never_equal (x y : Core Qc) : exn + bool := inr false.

(** The phase's right-hand provider recomputes its conductance. *)
Definition regenerate_b (h : gmap oid (Core Qc)) : gmap oid (Core Qc) :=
  alter (λ p, {| name := name p;
                 store := <["throat.diffusive_conductance" := [q 7 1]]> (store p);
                 Np := Np p; Nt := Nt p; _net := _net p; _phases := _phases p;
                 _physics := _physics p; Ps := Ps p; Ts := Ts p;
                 conns := conns p |}) 3 h.

(** A one-pore mixture whose single component was built on another
    network, of three pores. *)
Definition brine : Core Qc :=
  {| name := "brine"; store := ∅; Np := 1; Nt := 0; _net := 7;
     _phases := [9]; _physics := []; Ps := [0]; Ts := [];
     conns := [] |}.

Definition salt : Core Qc :=
  {| name := "salt";
     store := {[ "pore.mole_fraction" := [q 1 2; q 1 4; q 1 4] ]};
     Np := 3; Nt := 2; _net := 10;
     _phases := []; _physics := []; Ps := [0; 1; 2]; Ts := [0; 1];
     conns := [] |}.

Definition one_pore : Core Qc :=
  {| name := "one_pore"; store := ∅; Np := 1; Nt := 0; _net := 7;
     _phases := [8]; _physics := []; Ps := [0]; Ts := [];
     conns := [] |}.

Definition three_pores : Core Qc :=
  {| name := "three_pores"; store := ∅; Np := 3; Nt := 2; _net := 10;
     _phases := [9]; _physics := []; Ps := [0; 1; 2]; Ts := [0; 1];
     conns := [(0, 1); (1, 2)] |}.

Definition two_networks : World Qc :=
  {| heap := {[ 7 := one_pore; 8 := brine; 9 := salt; 10 := three_pores ]};
     log := [] |}.

(** *** A solver and a designation rule to run the algorithms with *)
Import LinearSolver.

(** The first [n] rows of the system as dense rows, right-hand side
    last. *)
Definition tabulate (n : nat) (A : Mat Qc) (b : Vec Qc) : list (list Qc) :=
  map (λ i, map (A i) (seq 0 n) ++ [b i]) (seq 0 n).

Definition entry (r : list Qc) (j : nat) : Qc := nth j r 0%Qc.

(** The first row with a non-zero entry in column [col], and the other
    rows. *)
Fixpoint find_pivot (col : nat) (rows : list (list Qc))
    : option (list Qc * list (list Qc)) :=
  match rows with
  | [] => None
  | r :: rest =>
      if decide (entry r col = 0%Qc) then
        match find_pivot col rest with
        | Some (p, others) => Some (p, r :: others)
        | None => None
        end
      else Some (r, rest)
  end.

(** Gauss-Jordan elimination, one column per step: [pivoted] holds the
    rows already normalised, in column order. *)
Fixpoint gauss_jordan (steps col : nat) (pivoted todo : list (list Qc))
    : option (list (list Qc)) :=
  match steps with
  | O => Some pivoted
  | S steps =>
      match find_pivot col todo with
      | None => None
      | Some (p, others) =>
          let p := map (Qcmult (/ entry p col)) p in
          let clear r := zip_with (λ x y, x - entry r col * y)%Qc r p in
          gauss_jordan steps (S col) (map clear pivoted ++ [p]) (map clear others)
      end
  end.

(** A direct solver: the field, or [None] for a singular system. *)
Definition gauss (n : nat) (A : Mat Qc) (b : Vec Qc) : option (list Qc) :=
  match gauss_jordan n 0 [] (tabulate n A b) with
  | Some rows => Some (map (λ r, entry r n) rows)
  | None => None
  end.

Definition no_outflow (cn : list (nat * nat)) (i : nat)
    (Ab : Mat Qc * Vec Qc) : Mat Qc * Vec Qc := Ab.

Definition Qcmax (p r : Qc) : Qc := match (p ?= r)%Qc with Lt => r | _ => p end.
Definition Qcmin (p r : Qc) : Qc := match (p ?= r)%Qc with Gt => r | _ => p end.

Definition dirichlet_records (reg : gmap nat (BC Qc)) : list (nat * Qc) :=
  omap (λ ibc : nat * BC Qc,
          match ibc.2 with value_BC v => Some (ibc.1, v) | _ => None end)
       (map_to_list reg).

(** The nodes holding the highest Dirichlet value are the inlet; the
    driving difference is the highest value minus the lowest. *)
Definition designate_by_value (net : Core Qc) (reg : gmap nat (BC Qc))
    : option (list nat * Qc) :=
  match dirichlet_records reg with
  | [] => None
  | (_, v) :: rest =>
      let hi := foldl Qcmax v (map snd rest) in
      let lo := foldl Qcmin v (map snd rest) in
      if decide (hi = lo) then None
      else Some (map fst (filter (λ iv, iv.2 = hi) (dirichlet_records reg)),
                 (hi - lo)%Qc)
  end.

(** *** Three pores in a row

    Conductances 1 and 3, molar density 2, 2 and 4. *)
Definition net3 : Core Qc :=
  {| name := "net3"; store := ∅; Np := 3; Nt := 2; _net := 20;
     _phases := [21]; _physics := []; Ps := [0; 1; 2]; Ts := [0; 1];
     conns := [(0, 1); (1, 2)] |}.

Definition water : Core Qc :=
  {| name := "water";
     store := {[ "pore.molar_density" := [q 2 1; q 2 1; q 4 1] ]};
     Np := 3; Nt := 2; _net := 20;
     _phases := []; _physics := [22]; Ps := [0; 1; 2]; Ts := [0; 1];
     conns := [] |}.

Definition phys3 (gs : list Qc) : Core Qc :=
  {| name := "phys3";
     store := {[ "throat.diffusive_conductance" := gs ]};
     Np := 3; Nt := 2; _net := 20;
     _phases := []; _physics := []; Ps := [0; 1; 2]; Ts := [0; 1];
     conns := [] |}.

Definition chain3 (gs : list Qc) : World Qc :=
  {| heap := {[ 20 := net3; 21 := water; 22 := phys3 gs ]}; log := [] |}.

Definition gs3 : list Qc := [q 1 1; q 3 1].

(** Fickian diffusion through the row: mole fraction 1 at pore 0 and 0
    at pore 2. *)
Definition fick : Alg Qc :=
  {| alg_net := 20; _fluid := 21;
     _conductance := "throat.diffusive_conductance";
     _quantity := "pore.mole_fraction";
     bcs := {[ 0 := value_BC (q 1 1); 2 := value_BC (q 0 1) ]};
     alg_store := ∅; _eff_property := None |}.

(** The algorithm object and the world a [run] leaves behind. *)
Definition after_run (a : Alg Qc) (w : World Qc) : Alg Qc * World Qc :=
  match run no_outflow gauss a w with
  | (inr a1, w1) => (a1, w1)
  | (inl _, w1) => (a, w1)
  end.

(** *** More objects for the mixture

    [Ar] is a further pure component carrying mole fractions; [N2_twin]
    is a second object that bears the name of [N2]. *)
Definition Ar : Core Qc :=
  {| name := "Ar";
     store := {[ "pore.mole_fraction" := [q 1 100; q 1 100; q 1 50; q 1 50] ]};
     Np := 4; Nt := 3; _net := 0;
     _phases := []; _physics := []; Ps := [0; 1; 2; 3]; Ts := [0; 1; 2];
     conns := [] |}.

Definition N2_twin : Core Qc :=
  {| name := "N2"; store := ∅; Np := 4; Nt := 3; _net := 0;
     _phases := []; _physics := []; Ps := [0; 1; 2; 3]; Ts := [0; 1; 2];
     conns := [] |}.

Definition lab : World Qc :=
  {| heap := <[8 := Ar]> (<[9 := N2_twin]> (heap world)); log := [] |}.

(** A parent [regenerate] that recomputes the temperature of the
    object; the keyword arguments carry the value. *)
Definition recompute (kwargs : Qc) (x : oid) : M Qc unit :=
  store_value x "pore.temperature" (Scalar kwargs).

End Fixture.

(** * Theorems *)

(** Closed equalities between rationals, arrays of rationals and the
    like are decided by evaluation. *)
Ltac by_evaluation :=
  match goal with
  | |- ?P => apply (bool_decide_unpack P); vm_compute; exact I
  end.

Section PhaseFacts.
Import Base GenericPhase.
Context {V : Type} `{Num V}.
Implicit Types (w : World V) (o p : Core V) (key : string).

Lemma scatter_length (out : list V) ids vals :
  length (scatter out ids vals) = length out.
Proof.
  unfold scatter. generalize (zip ids vals) as ws. intros ws.
  revert out. induction ws as [|[i v] ws IH]; intros out; simpl; [done|].
  by rewrite IH, length_insert.
Qed.

Lemma last_write_snoc i (ws : list (nat * V)) j v :
  last_write i (ws ++ [(j, v)]) = if decide (j = i) then Some v else last_write i ws.
Proof. unfold last_write. by rewrite foldl_app. Qed.

Lemma foldl_insert_length (out : list V) (ws : list (nat * V)) :
  length (foldl (λ acc iv, <[iv.1 := iv.2]> acc) out ws) = length out.
Proof.
  revert out. induction ws as [|[j v] ws IH]; intros out; simpl; [done|].
  by rewrite IH, length_insert.
Qed.

(** Reading a position after a run of writes: the last write addressed
    to it, or what was there before. *)
Lemma foldl_insert_lookup (out : list V) (ws : list (nat * V)) i x :
  out !! i = Some x →
  foldl (λ acc iv, <[iv.1 := iv.2]> acc) out ws !! i
  = Some (default x (last_write i ws)).
Proof.
  intros Hx. induction ws as [|[j v] ws IH] using rev_ind; [done|].
  rewrite foldl_app, last_write_snoc. simpl.
  destruct (decide (j = i)) as [->|Hne].
  - apply list_lookup_insert_eq.
    rewrite foldl_insert_length. by eapply lookup_lt_Some.
  - by rewrite list_lookup_insert_ne.
Qed.

Lemma scatter_writes (out : list V) key e (ps : list (Core V)) :
  foldl (λ acc p, scatter acc (owned p e) (default [] (store p !! key))) out ps
  = foldl (λ acc iv, <[iv.1 := iv.2]> acc) out (writes key e ps).
Proof.
  unfold writes. revert out. induction ps as [|p ps IH]; intros out; [done|].
  simpl. rewrite foldl_app. apply IH.
Qed.

(** The provider loop, when every reference resolves and every provider
    carries the key: the scatters are applied in order and nothing else
    happens. *)
Lemma interleave_loop_ok w key e sources (ps : list (Core V)) out :
  providers w sources = Some ps →
  Forall (λ p, is_Some (store p !! key)) ps →
  interleave_loop key e sources out w
  = (inr (foldl (λ acc p, scatter acc (owned p e) (default [] (store p !! key)))
            out ps), w).
Proof.
  unfold providers. rewrite mapM_Some. intros Hps. revert out.
  induction Hps as [|s p sources ps Hs _ IH]; intros out Hall; [done|].
  apply Forall_cons in Hall as [[vals Hvals] Hall].
  simpl. unfold mbind, M_bind, deref. rewrite Hs, Hvals. simpl.
  by rewrite IH.
Qed.

(** The provider loop, when some provider lacks the key. *)
Lemma interleave_loop_missing w key e sources (ps : list (Core V)) out :
  providers w sources = Some ps →
  Exists (λ p, store p !! key = None) ps →
  interleave_loop key e sources out w = (inl (MissingProperty key), w).
Proof.
  unfold providers. rewrite mapM_Some. intros Hps. revert out.
  induction Hps as [|s p sources ps Hs _ IH]; intros out Hex.
  - by apply Exists_nil in Hex.
  - simpl. unfold mbind, M_bind, deref. rewrite Hs.
    destruct (store p !! key) as [vals|] eqn:Hvals; [|done].
    apply IH. apply Exists_cons in Hex as [Hex|Hex]; [congruence|done].
Qed.

Lemma interleave_resolve w self o key e (ps : list (Core V)) :
  heap w !! self = Some o →
  element_of key = Some e →
  providers w (_physics o) = Some ps →
  _interleave_data self key (_physics o) w = (resolve key e (count o e) ps, w).
Proof.
  intros Hself He Hps.
  unfold _interleave_data, mbind, M_bind, deref. rewrite Hself, He.
  unfold resolve. case_decide as Hall.
  - rewrite (interleave_loop_ok _ _ _ _ ps) by done.
    rewrite scatter_writes. do 2 f_equal.
    apply list_eq. intros i. rewrite list_lookup_fmap.
    destruct (decide (i < count o e)) as [Hi|Hi].
    + rewrite lookup_seq_lt by done. simpl.
      apply foldl_insert_lookup. by apply lookup_replicate_2.
    + rewrite lookup_seq_ge by lia. simpl.
      apply lookup_ge_None_2. rewrite foldl_insert_length, length_replicate. lia.
  - apply (interleave_loop_missing _ _ _ _ ps); [done|].
    apply not_Forall_Exists in Hall; [|apply _].
    eapply Exists_impl; [exact Hall|]. simpl. intros p Hp.
    by apply eq_None_not_Some.
Qed.

(** C1.  Reading a key from a Phase.  A key held in the Phase's own
    store is answered with the stored array, and nothing else happens.
    A key the Phase does not hold is assembled from its Physics
    providers, visited in registration order: the answer has the full
    length of the key's domain, each position holds the value the last
    provider owning it wrote there and zero where no provider owns it,
    and the read fails with [MissingProperty] as soon as a provider
    lacks the key.  Only a debug line is logged. *)
Theorem getitem_resolves w self o key :
  heap w !! self = Some o →
  (∀ v, store o !! key = Some v → __getitem__ self key w = (inr v, w)) ∧
  (∀ e ps,
     store o !! key = None →
     element_of key = Some e →
     providers w (_physics o) = Some ps →
     __getitem__ self key w
     = (resolve key e (count o e) ps,
        {| heap := heap w;
           log := log w ++ [(DEBUG, key +:+ " not on Phase, constructing data from Physics")] |})
     ∧ (Forall (λ p, is_Some (store p !! key)) ps →
        ∃ arr, resolve key e (count o e) ps = inr arr
               ∧ length arr = count o e
               ∧ arr = foldl (λ acc p, scatter acc (owned p e) (default [] (store p !! key)))
                         (replicate (count o e) f0) ps)).
Proof.
  intros Hself. split.
  - intros v Hv. unfold __getitem__, mbind, M_bind, deref. by rewrite Hself, Hv.
  - intros e ps Hnone He Hps. split.
    + unfold __getitem__, mbind, M_bind, deref. rewrite Hself, Hnone. simpl.
      by apply interleave_resolve.
    + intros Hall.
      pose proof (interleave_resolve w self o key e ps Hself He Hps) as Hres.
      unfold _interleave_data, mbind, M_bind, deref in Hres.
      rewrite Hself, He, (interleave_loop_ok _ _ _ _ ps) in Hres by done.
      injection Hres as Hres. eexists. split; [done|]. split; [|done].
      by rewrite scatter_writes, foldl_insert_length, length_replicate.
Qed.

(** *** Reads depend on the heap alone and leave it alone *)

Lemma interleave_loop_frame key e sources (out : list V) h :
  ∃ r, ∀ l, interleave_loop key e sources out (mkWorld h l) = (r, mkWorld h l).
Proof.
  revert out. induction sources as [|s rest IH]; intros out; simpl.
  - by eexists.
  - unfold mbind, M_bind, deref. simpl.
    destruct (h !! s) as [p|]; [|by eexists].
    destruct (store p !! key) as [vals|]; [apply IH | by eexists].
Qed.

Lemma interleave_data_frame self key sources h :
  ∃ r : exn + list V,
    ∀ l, _interleave_data self key sources (mkWorld h l) = (r, mkWorld h l).
Proof.
  unfold _interleave_data, mbind, M_bind, deref. simpl.
  destruct (h !! self) as [o|]; [|by eexists].
  destruct (element_of key) as [e|]; [apply interleave_loop_frame | by eexists].
Qed.

Lemma getitem_frame self key h :
  ∃ (r : exn + list V) msgs,
    ∀ l, __getitem__ self key (mkWorld h l) = (r, mkWorld h (l ++ msgs)).
Proof.
  unfold __getitem__, mbind, M_bind, deref. simpl.
  destruct (h !! self) as [o|].
  - destruct (store o !! key) as [v|].
    + exists (inr v), []. intros l. by rewrite app_nil_r.
    + destruct (interleave_data_frame self key (_physics o) h) as [r Hr].
      eexists r, [_]. intros l. unfold logger. simpl. by rewrite Hr.
  - exists (inl AttributeError), []. intros l. by rewrite app_nil_r.
Qed.

(** C7.  Resolution is a pure, uncached read.  Reading a key from a
    Phase leaves the whole heap as it was: the Phase's own store, the
    stores of its providers and the network object.  Nothing is
    memoized: whatever happens to the heap afterwards, for instance a
    provider regenerating its data, a later read of the same key returns
    what it would have returned had the first read never taken place. *)
Theorem getitem_pure w self key :
  let after := (__getitem__ self key w).2 in
  heap after = heap w
  ∧ (∀ (regenerate : gmap oid (Core V) → gmap oid (Core V)) l l',
      (__getitem__ self key {| heap := regenerate (heap after); log := l |}).1
      = (__getitem__ self key {| heap := regenerate (heap w); log := l' |}).1)
  ∧ (∀ (regenerate : gmap oid (Core V) → gmap oid (Core V)) l o e ps,
      regenerate (heap w) !! self = Some o →
      store o !! key = None →
      element_of key = Some e →
      providers {| heap := regenerate (heap w); log := l |} (_physics o) = Some ps →
      (__getitem__ self key {| heap := regenerate (heap after); log := l |}).1
      = resolve key e (count o e) ps).
Proof.
  destruct w as [h l0].
  destruct (getitem_frame self key h) as (r & msgs & Hr).
  rewrite Hr. simpl. split; [done|]. split.
  - intros regenerate l l'.
    destruct (getitem_frame self key (regenerate h)) as (r' & msgs' & Hr').
    by rewrite !Hr'.
  - intros regenerate l o e ps Hself Hnone He Hps.
    unfold __getitem__, mbind, M_bind, deref. simpl. rewrite Hself, Hnone. simpl.
    by erewrite interleave_resolve.
Qed.

(** *** Writes *)

Lemma setitem_loop_defined (super : oid → string → pyval V → M V unit)
    w self prop value sources (ps : list (Core V)) :
  providers w sources = Some ps →
  Exists (λ p, is_Some (store p !! prop)) ps →
  setitem_loop super self prop value sources w
  = (inr tt,
     {| heap := heap w;
        log := log w ++ [(ERROR, prop +:+ " is already defined in at least one associated Geometry object")] |}).
Proof.
  unfold providers. rewrite mapM_Some. intros Hps.
  induction Hps as [|s p sources ps Hs _ IH]; intros Hex.
  - by apply Exists_nil in Hex.
  - simpl. unfold mbind, M_bind, deref. rewrite Hs.
    destruct (store p !! prop) as [vals|] eqn:Hvals; [done|].
    apply IH. apply Exists_cons in Hex as [[? Hex]|Hex]; [congruence|done].
Qed.

Lemma setitem_loop_free (super : oid → string → pyval V → M V unit)
    w self prop value sources (ps : list (Core V)) :
  providers w sources = Some ps →
  Forall (λ p, store p !! prop = None) ps →
  setitem_loop super self prop value sources w = super self prop value w.
Proof.
  unfold providers. rewrite mapM_Some. intros Hps.
  induction Hps as [|s p sources ps Hs _ IH]; intros Hall; [done|].
  apply Forall_cons in Hall as [Hp Hall].
  simpl. unfold mbind, M_bind, deref. rewrite Hs, Hp. by apply IH.
Qed.

(** C8.  Assigning a key on a Phase.  When some associated Physics
    already holds the key nothing is written: the call returns normally,
    the heap (and with it the Phase's own store) is exactly what it was,
    and one error line is logged.  When no associated Physics holds the
    key the assignment is the parent class's ordinary write. *)
Theorem setitem_guarded (super : oid → string → pyval V → M V unit)
    w self o prop value (ps : list (Core V)) :
  heap w !! self = Some o →
  providers w (_physics o) = Some ps →
  (Exists (λ p, is_Some (store p !! prop)) ps →
     __setitem__ super self prop value w
     = (inr tt,
        {| heap := heap w;
           log := log w ++ [(ERROR, prop +:+ " is already defined in at least one associated Geometry object")] |}))
  ∧ (Forall (λ p, store p !! prop = None) ps →
     __setitem__ super self prop value w = super self prop value w).
Proof.
  intros Hself Hps. split; intros Hcase;
    unfold __setitem__, mbind, M_bind, deref; rewrite Hself.
  - by apply (setitem_loop_defined _ _ _ _ _ _ ps).
  - by apply (setitem_loop_free _ _ _ _ _ _ ps).
Qed.

(** *** Components *)

Lemma names_ok w l (cs : list (Core V)) :
  providers w l = Some cs → names l w = (inr (map name cs), w).
Proof.
  unfold providers. rewrite mapM_Some.
  induction 1 as [|i c l cs Hi _ IH]; simpl; [done|].
  unfold mbind, M_bind, deref. by rewrite Hi, IH.
Qed.

(** [list.remove] never touches the world; it either raises or returns
    the list with exactly one item taken out. *)
Lemma list_remove_spec (eq : Core V → Core V → exn + bool) x l w :
  (∃ e, list_remove eq x l w = (inl e, w))
  ∨ (∃ l1 y l2, l = l1 ++ y :: l2 ∧ list_remove eq x l w = (inr (l1 ++ l2), w)).
Proof.
  induction l as [|y rest IH]; simpl.
  - left. by eexists.
  - case_decide as Hy.
    + right. by exists [], y, rest.
    + unfold mbind, M_bind, deref.
      destruct (heap w !! y) as [cy|]; [|left; by eexists].
      destruct (heap w !! x) as [cx|]; [|left; by eexists].
      destruct (eq cy cx) as [e|[|]].
      * left. by eexists.
      * right. by exists [], y, rest.
      * destruct IH as [[e He]|(l1 & z & l2 & -> & Hr)].
        -- left. exists e. by rewrite He.
        -- right. exists (y :: l1), z, l2. split; [done|]. by rewrite Hr.
Qed.

Lemma providers_app w l1 l2 (cs : list (Core V)) :
  providers w (l1 ++ l2) = Some cs →
  ∃ cs1 cs2, cs = cs1 ++ cs2 ∧ providers w l1 = Some cs1 ∧ providers w l2 = Some cs2.
Proof.
  unfold providers. rewrite !mapM_Some. intros Hall.
  apply Forall2_app_inv_l in Hall as (cs1 & cs2 & H1 & H2 & ->).
  exists cs1, cs2. by rewrite !mapM_Some.
Qed.

Lemma providers_app_2 w l1 l2 (cs1 cs2 : list (Core V)) :
  providers w l1 = Some cs1 → providers w l2 = Some cs2 →
  providers w (l1 ++ l2) = Some (cs1 ++ cs2).
Proof. unfold providers. rewrite !mapM_Some. apply Forall2_app. Qed.

(** Re-pointing the component list of one object changes no name. *)
Lemma providers_set_phases h lg lg' self l' l (cs : list (Core V)) :
  providers (mkWorld h lg) l = Some cs →
  ∃ cs', providers (mkWorld (alter (set_phases l') self h) lg') l = Some cs'
         ∧ map name cs' = map name cs.
Proof.
  unfold providers. simpl. rewrite mapM_Some.
  induction 1 as [|i c l cs Hi _ (cs' & Hcs' & Hn)].
  - by exists [].
  - destruct (decide (i = self)) as [->|Hne].
    + exists (set_phases l' c :: cs'). simpl.
      by rewrite lookup_alter_eq, Hi, Hcs', Hn.
    + exists (c :: cs'). simpl.
      by rewrite lookup_alter_ne, Hi, Hcs', Hn.
Qed.

Lemma component_names_update w self o l' (cs' : list (Core V)) :
  heap w !! self = Some o →
  providers w l' = Some cs' →
  component_names
    {| heap := alter (set_phases l') self (heap w); log := log w |} self
  = Some (map name cs').
Proof.
  intros Hself Hcs'. destruct w as [h lg]. simpl in *.
  destruct (providers_set_phases h lg lg self l' l' cs' Hcs') as (cs2 & Hcs2 & Hn).
  unfold component_names. cbn [heap].
  rewrite lookup_alter_eq, Hself. cbn [fmap option_fmap option_map _phases set_phases].
  by rewrite Hcs2, Hn.
Qed.

Lemma set_component_add (eq : Core V → Core V → exn + bool)
    w self phase o ph (cs : list (Core V)) :
  heap w !! self = Some o →
  heap w !! phase = Some ph →
  providers w (_phases o) = Some cs →
  set_component eq self phase "add" w
  = if decide (name ph ∈ map name cs)
    then (inr tt, {| heap := heap w;
                     log := log w ++ [(ERROR, "Phase already present")] |})
    else (inr tt, {| heap := alter (set_phases (_phases o ++ [phase])) self (heap w);
                     log := log w |}).
Proof.
  intros Hself Hph Hcs. unfold set_component. simpl.
  unfold phases, mbind, M_bind, deref. rewrite Hph, Hself.
  rewrite (names_ok _ _ cs Hcs). case_decide; [done|]. by rewrite Hself.
Qed.

Lemma set_component_remove (eq : Core V → Core V → exn + bool)
    w self phase o ph (cs : list (Core V)) :
  heap w !! self = Some o →
  heap w !! phase = Some ph →
  providers w (_phases o) = Some cs →
  set_component eq self phase "remove" w
  = if decide (name ph ∈ map name cs)
    then match list_remove eq phase (_phases o) w with
         | (inr l, w') => update self (set_phases l) w'
         | (inl e, w') => (inl e, w')
         end
    else (inr tt, {| heap := heap w;
                     log := log w ++ [(ERROR, "Phase not found")] |}).
Proof.
  intros Hself Hph Hcs. unfold set_component. simpl.
  unfold phases, mbind, M_bind, deref. rewrite Hph, Hself.
  rewrite (names_ok _ _ cs Hcs). case_decide; [|done]. by rewrite Hself.
Qed.

Lemma set_component_other (eq : Core V → Core V → exn + bool) w self phase mode :
  mode ≠ "add" → mode ≠ "remove" →
  set_component eq self phase mode w = (inr tt, w).
Proof. intros. unfold set_component. by rewrite !decide_False. Qed.

(** [list.remove] when the object itself is in the list and nothing
    before it compares equal to it: the first occurrence goes. *)
Lemma list_remove_first (eq : Core V → Core V → exn + bool) w x cx l1 l2 :
  heap w !! x = Some cx →
  Forall (λ y, y ≠ x ∧ ∃ cy, heap w !! y = Some cy ∧ eq cy cx = inr false) l1 →
  list_remove eq x (l1 ++ x :: l2) w = (inr (l1 ++ l2), w).
Proof.
  intros Hx. induction 1 as [|y l1 (Hne & cy & Hy & Heq) _ IH]; simpl.
  - by rewrite decide_True.
  - rewrite decide_False by done.
    unfold mbind, M_bind, deref. by rewrite Hy, Hx, Heq, IH.
Qed.

(** C9.  [set_component] keeps the component names unique.  With mode
    'add' the phase is appended exactly when no registered component
    bears its name; with mode 'remove' an item is taken out only when a
    registered component bears its name (the first occurrence of the
    phase itself when nothing before it compares equal to it; the call
    may also raise from [list.remove], and then nothing changes).  In
    the two rejected cases the call returns normally, the heap is
    untouched and one error line is logged.  Any other mode does
    nothing.  Whatever the mode, a component list without repeated names
    is left without repeated names. *)
Theorem set_component_unique (eq : Core V → Core V → exn + bool)
    w self phase mode o ph (cs : list (Core V)) :
  heap w !! self = Some o →
  heap w !! phase = Some ph →
  providers w (_phases o) = Some cs →
  let r := set_component eq self phase mode w in
  let registered := name ph ∈ map name cs in
  (mode = "add" → ¬ registered →
     r = (inr tt, {| heap := alter (set_phases (_phases o ++ [phase])) self (heap w);
                     log := log w |}))
  ∧ (mode = "add" → registered →
     r = (inr tt, {| heap := heap w;
                     log := log w ++ [(ERROR, "Phase already present")] |}))
  ∧ (mode = "remove" → ¬ registered →
     r = (inr tt, {| heap := heap w;
                     log := log w ++ [(ERROR, "Phase not found")] |}))
  ∧ (mode = "remove" → registered →
     (∃ e, r = (inl e, w))
     ∨ (∃ l1 y l2, _phases o = l1 ++ y :: l2
          ∧ r = (inr tt, {| heap := alter (set_phases (l1 ++ l2)) self (heap w);
                            log := log w |})))
  ∧ (mode = "remove" → registered →
     ∀ l1 l2, _phases o = l1 ++ phase :: l2 →
       Forall (λ y, y ≠ phase ∧ ∃ cy, heap w !! y = Some cy ∧ eq cy ph = inr false) l1 →
       r = (inr tt, {| heap := alter (set_phases (l1 ++ l2)) self (heap w);
                       log := log w |}))
  ∧ (mode ≠ "add" → mode ≠ "remove" → r = (inr tt, w))
  ∧ (NoDup (map name cs) →
     ∃ ns', component_names r.2 self = Some ns' ∧ NoDup ns').
Proof.
  intros Hself Hph Hcs r registered.
  assert (Hsame : component_names w self = Some (map name cs)).
  { unfold component_names. by rewrite Hself, Hcs. }
  assert (Hlogged : ∀ msgs,
    component_names {| heap := heap w; log := msgs |} self = Some (map name cs)).
  { intros msgs. unfold component_names, providers in *. simpl.
    by rewrite Hself, Hcs. }
  split; [|split; [|split; [|split; [|split; [|split]]]]].
  - intros -> Hreg. subst r.
    by rewrite (set_component_add eq w self phase o ph cs), decide_False.
  - intros -> Hreg. subst r.
    by rewrite (set_component_add eq w self phase o ph cs), decide_True.
  - intros -> Hreg. subst r.
    by rewrite (set_component_remove eq w self phase o ph cs), decide_False.
  - intros -> Hreg. subst r.
    rewrite (set_component_remove eq w self phase o ph cs), decide_True by done.
    destruct (list_remove_spec eq phase (_phases o) w)
      as [[e ->]|(l1 & y & l2 & Hl & ->)].
    + left. by exists e.
    + right. by exists l1, y, l2.
  - intros -> Hreg l1 l2 Hl Hbefore. subst r.
    rewrite (set_component_remove eq w self phase o ph cs), decide_True by done.
    by rewrite Hl, (list_remove_first eq w phase ph l1 l2).
  - intros. by apply set_component_other.
  - intros Hnodup. subst r.
    destruct (decide (mode = "add")) as [->|Hadd];
      [|destruct (decide (mode = "remove")) as [->|Hrem]].
    + rewrite (set_component_add eq w self phase o ph cs) by done.
      case_decide as Hreg; simpl; [by eauto|].
      assert (providers w (_phases o ++ [phase]) = Some (cs ++ [ph])) as Hnew.
      { apply providers_app_2; [done|]. unfold providers. simpl. by rewrite Hph. }
      rewrite (component_names_update w self o _ _ Hself Hnew).
      eexists. split; [done|]. rewrite map_app. simpl.
      apply NoDup_app. split; [done|]. split; [|apply NoDup_singleton].
      intros x Hx Hx'. apply list_elem_of_singleton in Hx'. by subst.
    + rewrite (set_component_remove eq w self phase o ph cs) by done.
      case_decide as Hreg; simpl; [|by eauto].
      destruct (list_remove_spec eq phase (_phases o) w)
        as [[e ->]|(l1 & y & l2 & Hl & ->)]; [by eauto|].
      rewrite Hl in Hcs.
      apply providers_app in Hcs as (cs1 & cs2' & -> & Hcs1 & Hcs2).
      change (y :: l2) with ([y] ++ l2) in Hcs2.
      apply providers_app in Hcs2 as (cy & cs2 & -> & _ & Hcs2).
      unfold update. simpl.
      rewrite (component_names_update w self o _ _ Hself
                 (providers_app_2 _ _ _ _ _ Hcs1 Hcs2)).
      eexists. split; [done|].
      eapply sublist_NoDup; [exact Hnodup|].
      rewrite !map_app. apply sublist_app; [done|]. by apply sublist_inserts_l.
    + rewrite set_component_other by done. eauto.
Qed.

(** *** Mixtures *)

Lemma mole_fractions_cons w c comps :
  mole_fractions (V:=V) w (c :: comps)
  = match (__getitem__ c "pore.mole_fraction" w).1 with
    | inr a => a :: mole_fractions w comps
    | inl _ => mole_fractions w comps
    end.
Proof.
  unfold mole_fractions. simpl.
  by destruct (__getitem__ c "pore.mole_fraction" w).1.
Qed.

Lemma mole_fractions_log h l l' comps :
  mole_fractions (V:=V) (mkWorld h l) comps = mole_fractions (mkWorld h l') comps.
Proof.
  induction comps as [|c comps IH]; [done|]. rewrite !mole_fractions_cons.
  destruct (getitem_frame c "pore.mole_fraction" h) as (r & msgs & Hr).
  by rewrite !Hr, IH.
Qed.

(** The loop of [check_mixture_health]: every answered array is added
    when numpy can broadcast it against the running sum and skipped
    otherwise; the heap is only read. *)
Lemma mixture_loop_spec h comps : ∀ l (acc : list V),
  ∃ l', mixture_loop comps acc (mkWorld h l)
        = (inr (foldl (λ s a, default s (broadcast fadd s a)) acc
                  (mole_fractions (mkWorld h l) comps)),
           mkWorld h l').
Proof.
  induction comps as [|c comps IH]; intros l acc; [by eexists|].
  rewrite mole_fractions_cons. simpl.
  destruct (getitem_frame c "pore.mole_fraction" h) as (r & msgs & Hr).
  unfold mbind at 1. unfold M_bind, try_except. unfold mbind at 1. unfold M_bind.
  rewrite Hr. simpl. destruct r as [e|a]; simpl.
  - destruct (IH (l ++ msgs) acc) as [l' ->].
    exists l'. by rewrite (mole_fractions_log h (l ++ msgs) l).
  - unfold np_add. destruct (broadcast fadd acc a) as [s|]; simpl.
    + destruct (IH (l ++ msgs) s) as [l' ->].
      exists l'. by rewrite (mole_fractions_log h (l ++ msgs) l).
    + destruct (IH (l ++ msgs) acc) as [l' ->].
      exists l'. by rewrite (mole_fractions_log h (l ++ msgs) l).
Qed.

Lemma foldl_broadcast_same_length n (arrs : list (list V)) : ∀ acc : list V,
  length acc = n →
  Forall (λ a, length a = n) arrs →
  foldl (λ s a, default s (broadcast fadd s a)) acc arrs
  = foldl (zip_with fadd) acc arrs
  ∧ length (foldl (zip_with fadd) acc arrs) = n.
Proof.
  induction arrs as [|a arrs IH]; intros acc Hacc Hall; simpl; [done|].
  apply Forall_cons in Hall as [Ha Hall].
  unfold broadcast at 2. rewrite decide_True by congruence. simpl.
  apply IH; [|done]. rewrite length_zip_with. lia.
Qed.

(** C10 (as amended).  [check_mixture_health] never raises and only
    reads the heap.  It starts from the zero array of length Np and
    visits the components in registration order; a component on which
    the lookup of 'pore.mole_fraction' fails is skipped, and so is one
    whose array numpy cannot broadcast against the running sum.  When
    every array the components answer with has length Np, the result is
    the entrywise sum of exactly those arrays and has length Np; when no
    component answers, it is the all-zeros array. *)
Theorem check_mixture_health_sum w self o :
  heap w !! self = Some o →
  let r := check_mixture_health self w in
  let arrs := mole_fractions w (_phases o) in
  heap r.2 = heap w
  ∧ r.1 = inr (foldl (λ s a, default s (broadcast fadd s a))
                 (replicate (Np o) f0) arrs)
  ∧ (Forall (λ a, length a = Np o) arrs →
       r.1 = inr (elementwise_sum (Np o) arrs)
       ∧ length (elementwise_sum (Np o) arrs) = Np o)
  ∧ (arrs = [] → r.1 = inr (replicate (Np o) f0)).
Proof.
  intros Hself r arrs. subst r arrs. destruct w as [h l]. simpl in Hself.
  unfold check_mixture_health, mbind, M_bind, deref. simpl. rewrite Hself.
  destruct (mixture_loop_spec h (_phases o) l (replicate (Np o) f0)) as [l' ->].
  simpl. split; [done|]. split; [done|]. split.
  - intros Hall.
    destruct (foldl_broadcast_same_length (Np o)
                (mole_fractions (mkWorld h l) (_phases o)) (replicate (Np o) f0))
      as [-> Hlen]; [apply length_replicate|done|done].
  - by intros ->.
Qed.

End PhaseFacts.

Section FickianFacts.
Import Base LinearSolver FickianDiffusion.
Context {V : Type} `{Num V}.

(** C4 (as amended).  [calc_eff_diffusivity] divides the raw effective
    property by the phase's 'pore.molar_density'.  The density is read
    through the phase as an array with one entry per pore, so for a
    scalar raw value the result is an array: its entry for a pore is the
    raw value divided by the molar density of that pore.  The same array
    is stored in [_eff_property]. *)
Theorem calc_eff_diffusivity_normalised (calc : Alg V → M V (pyval V))
    (self : Alg V) (clean : bool) (w w1 : World V) (d : V) (rho : list V) :
  calc self w = (inr (Scalar d), w1) →
  (GenericPhase.__getitem__ (_fluid self) "pore.molar_density" w1).1 = inr rho →
  calc_eff_diffusivity calc self clean w
  = (inr (Array (map (fdiv d) rho),
          set_eff_property (Array (map (fdiv d) rho)) self),
     (GenericPhase.__getitem__ (_fluid self) "pore.molar_density" w1).2)
  ∧ length (map (fdiv d) rho) = length rho
  ∧ ∀ i r, rho !! i = Some r → map (fdiv d) rho !! i = Some (fdiv d r).
Proof.
  intros Hcalc Hrho. split; [|split].
  - unfold calc_eff_diffusivity. unfold mbind at 1. unfold M_bind.
    rewrite Hcalc. unfold mbind at 1. unfold M_bind.
    destruct (GenericPhase.__getitem__ (_fluid self) "pore.molar_density" w1)
      as [r w2]. simpl in Hrho. by subst r.
  - apply length_map.
  - intros i r Hi. change (map (fdiv d) rho) with (fdiv d <$> rho).
    by rewrite list_lookup_fmap, Hi.
Qed.

End FickianFacts.

Section Witnesses.
Import Base GenericPhase LinearSolver FickianDiffusion Fixture.

Lemma getitem_resolves_witness :
  (__getitem__ 1 "pore.molar_density" world).1
    = inr [q 40 1; q 40 1; q 41 1; q 41 1]
  ∧ (__getitem__ 1 "throat.diffusive_conductance" world).1
    = inr [q 1 2; q 3 1; q 5 1].
Proof.
  destruct (getitem_resolves world 1 air "pore.molar_density" eq_refl) as [Hhit _].
  destruct (getitem_resolves world 1 air "throat.diffusive_conductance" eq_refl)
    as [_ Hmiss].
  split.
  - by rewrite (Hhit _ eq_refl).
  - destruct (Hmiss throat [phys_a; phys_b] eq_refl eq_refl eq_refl) as [-> _].
    reflexivity.
Defined.

Lemma getitem_pure_witness :
  heap (__getitem__ 1 "throat.diffusive_conductance" world).2 = heap world
  ∧ (__getitem__ 1 "throat.diffusive_conductance"
       {| heap := regenerate_b
                    (heap (__getitem__ 1 "throat.diffusive_conductance" world).2);
          log := [] |}).1
    = inr [q 1 2; q 3 1; q 7 1].
Proof.
  destruct (getitem_pure world 1 "throat.diffusive_conductance") as (Hheap & _ & Hregen).
  split; [exact Hheap|].
  by rewrite (Hregen regenerate_b [] air throat
                [phys_a; {| name := "phys_b";
                            store := {[ "throat.diffusive_conductance" := [q 7 1] ]};
                            Np := 4; Nt := 3; _net := 0; _phases := [];
                            _physics := []; Ps := [2; 3]; Ts := [2];
                            conns := [] |}]
                eq_refl eq_refl eq_refl eq_refl).
Defined.

Lemma check_mixture_health_sum_witness :
  (check_mixture_health 4 world).1 = inr [q 1 1; q 1 1; q 1 1; q 1 1].
Proof.
  destruct (check_mixture_health_sum world 4 gas eq_refl) as (_ & _ & Hsum & _).
  destruct Hsum as [-> _]; [repeat constructor|].
  vm_compute. repeat (f_equal; try (apply Qc_is_canon; reflexivity)).
Defined.

(** C10, the claim as stated, does not hold: on [two_networks] the
    mixture [brine] has one pore, the lookup on its only component
    succeeds with three entries, numpy stretches the one-entry zero
    array over them, and the result has three entries, not Np = 1. *)
Lemma check_mixture_health_length_counterexample :
  heap two_networks !! 8 = Some brine
  ∧ Np brine = 1
  ∧ (check_mixture_health 8 two_networks).1 = inr [q 1 2; q 1 4; q 1 4]
  ∧ length [q 1 2; q 1 4; q 1 4] ≠ Np brine.
Proof. repeat split; by_evaluation. Qed.

Lemma setitem_guarded_witness :
  __setitem__ store_value 1 "throat.diffusive_conductance" (Scalar (q 9 1)) world
  = (inr tt,
     {| heap := heap world;
        log := [(ERROR, "throat.diffusive_conductance is already defined in at least one associated Geometry object")] |})
  ∧ __setitem__ store_value 1 "pore.temperature" (Scalar (q 298 1)) world
    = store_value 1 "pore.temperature" (Scalar (q 298 1)) world.
Proof.
  split.
  - destruct (setitem_guarded store_value world 1 air "throat.diffusive_conductance"
                (Scalar (q 9 1)) [phys_a; phys_b] eq_refl eq_refl) as [Hdrop _].
    apply Hdrop. apply Exists_cons_hd. by eexists.
  - destruct (setitem_guarded store_value world 1 air "pore.temperature"
                (Scalar (q 298 1)) [phys_a; phys_b] eq_refl eq_refl) as [_ Hkeep].
    apply Hkeep. by repeat constructor.
Defined.

Lemma set_component_unique_witness :
  component_names (set_component never_equal 4 7 "add" world).2 4
    = Some ["air"; "N2"; "O2"; "CO2"]
  ∧ set_component never_equal 4 5 "add" world
    = (inr tt, {| heap := heap world; log := [(ERROR, "Phase already present")] |})
  ∧ set_component never_equal 4 7 "remove" world
    = (inr tt, {| heap := heap world; log := [(ERROR, "Phase not found")] |})
  ∧ component_names (set_component never_equal 4 5 "remove" world).2 4
    = Some ["air"; "O2"].
Proof.
  destruct (set_component_unique never_equal world 4 7 "add" gas CO2 [air; N2; O2]
              eq_refl eq_refl eq_refl) as (Hadd & _).
  destruct (set_component_unique never_equal world 4 5 "add" gas N2 [air; N2; O2]
              eq_refl eq_refl eq_refl) as (_ & Hdup & _).
  destruct (set_component_unique never_equal world 4 7 "remove" gas CO2 [air; N2; O2]
              eq_refl eq_refl eq_refl) as (_ & _ & Habsent & _).
  destruct (set_component_unique never_equal world 4 5 "remove" gas N2 [air; N2; O2]
              eq_refl eq_refl eq_refl) as (_ & _ & _ & _ & Hremove & _).
  split; [|split; [|split]].
  - rewrite Hadd; [reflexivity|done|]. by_evaluation.
  - apply Hdup; [done|]. by_evaluation.
  - apply Habsent; [done|]. by_evaluation.
  - rewrite (Hremove eq_refl ltac:(by_evaluation) [1] [6] eq_refl); [reflexivity|].
    repeat constructor; [done|]. by eexists.
Defined.

Lemma calc_eff_diffusivity_normalised_witness :
  let solved := after_run fick (chain3 gs3) in
  (calc_eff_diffusivity (_calc_eff_prop designate_by_value) solved.1 false solved.2).1
  = inr (Array (map (Qcdiv (q 3 4)) [q 2 1; q 2 1; q 4 1]),
         set_eff_property (Array (map (Qcdiv (q 3 4)) [q 2 1; q 2 1; q 4 1])) solved.1).
Proof.
  intros solved.
  destruct (calc_eff_diffusivity_normalised (_calc_eff_prop designate_by_value)
              solved.1 false solved.2
              (_calc_eff_prop designate_by_value solved.1 solved.2).2
              (q 3 4) [q 2 1; q 2 1; q 4 1]) as [-> _]; [by_evaluation..|done].
Defined.

(** C4, the claim as stated, does not hold: on the row of three pores
    the raw effective property is the scalar 3/4, and the value
    returned is the array (3/8, 3/8, 3/16), one entry per pore, not a
    scalar. *)
Lemma calc_eff_diffusivity_scalar_counterexample :
  let solved := after_run fick (chain3 gs3) in
  (_calc_eff_prop designate_by_value solved.1 solved.2).1 = inr (Scalar (q 3 4))
  ∧ (calc_eff_diffusivity (_calc_eff_prop designate_by_value) solved.1 false solved.2).1
    = inr (Array [q 3 8; q 3 8; q 3 16],
           set_eff_property (Array [q 3 8; q 3 8; q 3 16]) solved.1)
  ∧ ¬ (∃ s a, (calc_eff_diffusivity (_calc_eff_prop designate_by_value)
                 solved.1 false solved.2).1 = inr (Scalar s, a)).
Proof.
  intros solved.
  assert ((calc_eff_diffusivity (_calc_eff_prop designate_by_value)
             solved.1 false solved.2).1
          = inr (Array [q 3 8; q 3 8; q 3 16],
                 set_eff_property (Array [q 3 8; q 3 8; q 3 16]) solved.1)) as Hr
    by by_evaluation.
  split; [by_evaluation|]. split; [exact Hr|].
  intros (s & a & Hs). rewrite Hr in Hs. discriminate Hs.
Qed.

End Witnesses.

(** * Further properties of the component list *)
Section ComponentFacts.
Import Base GenericPhase.
Context {V : Type} `{Num V}.
Implicit Types (w : World V) (o ph : Core V).




Lemma providers_singleton w i (cs : list (Core V)) :
  providers w [i] = Some cs → ∃ c, cs = [c] ∧ heap w !! i = Some c.
Proof.
  unfold providers. rewrite mapM_Some. intros Hall.
  apply Forall2_cons_inv_l in Hall as (c & cs' & Hc & Hnil & ->).
  apply Forall2_nil_inv_l in Hnil as ->. by exists c.
Qed.

Lemma providers_elem w l (cs : list (Core V)) y c :
  providers w l = Some cs → y ∈ l → heap w !! y = Some c → c ∈ cs.
Proof.
  unfold providers. rewrite mapM_Some. intros Hall Hy Hc.
  induction Hall as [|i c' l cs Hi _ IH]; [by apply elem_of_nil in Hy|].
  apply elem_of_cons in Hy as [->|Hy].
  - rewrite Hc in Hi. injection Hi as ->. apply list_elem_of_here.
  - apply list_elem_of_further. by apply IH.
Qed.

Lemma providers_lookup w l (cs : list (Core V)) :
  providers w l = Some cs → Forall (λ y, is_Some (heap w !! y)) l.
Proof.
  unfold providers. rewrite mapM_Some.
  induction 1 as [|i c l cs Hi _ IH]; constructor; eauto.
Qed.

(** The world a successful 'add' leaves behind. *)
Lemma after_add w self phase o ph (cs : list (Core V)) :
  heap w !! self = Some o →
  heap w !! phase = Some ph →
  providers w (_phases o) = Some cs →
  let w1 := {| heap := alter (set_phases (_phases o ++ [phase])) self (heap w);
               log := log w |} in
  heap w1 !! self = Some (set_phases (_phases o ++ [phase]) o)
  ∧ ∃ ph1 cs1,
      heap w1 !! phase = Some ph1 ∧ name ph1 = name ph
      ∧ providers w1 (_phases o) = Some cs1
      ∧ providers w1 (_phases o ++ [phase]) = Some (cs1 ++ [ph1])
      ∧ map name cs1 = map name cs.
Proof.
  intros Hself Hph Hcs w1. split.
  { subst w1. simpl. by rewrite lookup_alter_eq, Hself. }
  destruct w as [h lg]. simpl in *.
  destruct (providers_set_phases h lg lg self (_phases o ++ [phase])
              (_phases o) cs Hcs) as (cs1 & Hcs1 & Hn1).
  assert (providers (mkWorld h lg) [phase] = Some [ph]) as Hone.
  { unfold providers. simpl. by rewrite Hph. }
  destruct (providers_set_phases h lg lg self (_phases o ++ [phase])
              [phase] [ph] Hone) as (cs2 & Hcs2 & Hn2).
  destruct (providers_singleton _ _ _ Hcs2) as (ph1 & -> & Hph1).
  exists ph1, cs1. repeat split; try done.
  - simpl in Hn2. by injection Hn2.
  - by apply providers_app_2.
Qed.

Lemma set_phases_restore (h : gmap oid (Core V)) self o l :
  h !! self = Some o →
  alter (set_phases (_phases o)) self (alter (set_phases l) self h) = h.
Proof.
  intros Hself. apply map_eq. intros i.
  destruct (decide (i = self)) as [->|Hi].
  - rewrite !lookup_alter_eq, Hself. simpl. by destruct o.
  - by rewrite !lookup_alter_ne.
Qed.

(** [list.remove] of an object that is not in the list, among objects
    that never compare equal: [ValueError]. *)
Lemma list_remove_absent (eq : Core V → Core V → exn + bool) w x cx l :
  (∀ a b, eq a b = inr false) →
  heap w !! x = Some cx →
  x ∉ l →
  Forall (λ y, is_Some (heap w !! y)) l →
  list_remove eq x l w = (inl ValueError, w).
Proof.
  intros Heq Hx Hnot Hall. induction Hall as [|y l [cy Hy] _ IH]; [done|].
  apply not_elem_of_cons in Hnot as [Hne Hnot]. simpl.
  rewrite decide_False by done.
  unfold mbind, M_bind, deref. by rewrite Hy, Hx, Heq, IH.
Qed.

(** X2.  Adding a component and removing it again is a round trip.
    When the phase bears a new name and objects compare by identity, the
    'add' succeeds, the 'remove' that follows succeeds as well, and the
    world after the two calls is exactly the world before them. *)
Theorem set_component_add_remove (eq : Core V → Core V → exn + bool)
    w self phase o ph (cs : list (Core V)) :
  (∀ a b, eq a b = inr false) →
  heap w !! self = Some o →
  heap w !! phase = Some ph →
  providers w (_phases o) = Some cs →
  name ph ∉ map name cs →
  ∃ w1, set_component eq self phase "add" w = (inr tt, w1)
        ∧ component_names w1 self = Some (map name cs ++ [name ph])
        ∧ set_component eq self phase "remove" w1 = (inr tt, w).
Proof.
  intros Heq Hself Hph Hcs Hnew.
  rewrite (set_component_add eq w self phase o ph cs), decide_False by done.
  eexists. split; [done|].
  destruct (after_add w self phase o ph cs Hself Hph Hcs)
    as (Hself1 & ph1 & cs1 & Hph1 & Hname & Hcs1 & Hcs1' & Hnames).
  set (w1 := {| heap := alter (set_phases (_phases o ++ [phase])) self (heap w);
                log := log w |}) in *.
  split.
  { unfold component_names. rewrite Hself1. simpl. rewrite Hcs1'.
    by rewrite map_app, Hnames, <- Hname. }
  rewrite (set_component_remove eq w1 self phase _ ph1 (cs1 ++ [ph1]) Hself1 Hph1)
    by done.
  rewrite decide_True
    by (rewrite map_app; apply elem_of_app; right; apply list_elem_of_here).
  simpl.
  assert (phase ∉ _phases o) as Hnotin.
  { intros Hin. apply Hnew. apply (list_elem_of_fmap_2 name).
    by apply (providers_elem w (_phases o) cs phase ph). }
  rewrite (list_remove_first eq w1 phase ph1 (_phases o) []); [|done|].
  - unfold update. simpl. rewrite app_nil_r, set_phases_restore by done.
    by destruct w.
  - apply Forall_forall. intros y Hy. split; [by intros ->|].
    pose proof (providers_lookup w1 _ _ Hcs1) as Hall.
    rewrite Forall_forall in Hall. destruct (Hall y Hy) as [cy Hcy].
    by exists cy.
Qed.

(** X3.  Removing a phase that merely shares its name with a registered
    component.  The name test passes, [list.remove] then finds no such
    object and raises [ValueError]: the call does not log 'Phase not
    found', and the world is left as it was. *)
Theorem set_component_remove_namesake (eq : Core V → Core V → exn + bool)
    w self phase o ph (cs : list (Core V)) :
  (∀ a b, eq a b = inr false) →
  heap w !! self = Some o →
  heap w !! phase = Some ph →
  providers w (_phases o) = Some cs →
  name ph ∈ map name cs →
  phase ∉ _phases o →
  set_component eq self phase "remove" w = (inl ValueError, w).
Proof.
  intros Heq Hself Hph Hcs Hname Hnotin.
  rewrite (set_component_remove eq w self phase o ph cs), decide_True by done.
  by rewrite (list_remove_absent eq w phase ph (_phases o))
    by eauto using providers_lookup.
Qed.

(** X4.  Adding the same phase twice registers it once.  After a
    successful 'add', a second 'add' of the phase returns normally,
    logs 'Phase already present' and leaves the heap as the first call
    left it. *)
Theorem set_component_add_twice (eq : Core V → Core V → exn + bool)
    w self phase o ph (cs : list (Core V)) :
  heap w !! self = Some o →
  heap w !! phase = Some ph →
  providers w (_phases o) = Some cs →
  name ph ∉ map name cs →
  ∃ w1, set_component eq self phase "add" w = (inr tt, w1)
        ∧ set_component eq self phase "add" w1
          = (inr tt, {| heap := heap w1;
                        log := log w1 ++ [(ERROR, "Phase already present")] |}).
Proof.
  intros Hself Hph Hcs Hnew.
  rewrite (set_component_add eq w self phase o ph cs), decide_False by done.
  eexists. split; [done|].
  destruct (after_add w self phase o ph cs Hself Hph Hcs)
    as (Hself1 & ph1 & cs1 & Hph1 & Hname & Hcs1 & Hcs1' & Hnames).
  rewrite (set_component_add eq _ self phase _ ph1 (cs1 ++ [ph1]) Hself1 Hph1)
    by done.
  by rewrite decide_True
    by (rewrite map_app; apply elem_of_app; right; apply list_elem_of_here).
Qed.

End ComponentFacts.

(** * Further properties of reads, writes and mixtures *)
Section ReadWriteFacts.
Import Base GenericPhase.
Context {V : Type} `{Num V}.
Implicit Types (w : World V) (o ph : Core V).

(** X5.  A dropped write is invisible.  After an assignment that was
    refused because some Physics holds the key, every read on every
    Phase, of that key or of any other, answers what it answered before
    the assignment. *)
Theorem setitem_dropped_read_back (super : oid → string → pyval V → M V unit)
    w self o prop value (ps : list (Core V)) :
  heap w !! self = Some o →
  providers w (_physics o) = Some ps →
  Exists (λ p, is_Some (store p !! prop)) ps →
  ∀ other key,
    (__getitem__ other key (__setitem__ super self prop value w).2).1
    = (__getitem__ other key w).1.
Proof.
  intros Hself Hps Hex other key.
  unfold __setitem__, mbind at 1. unfold M_bind, deref. rewrite Hself.
  rewrite (setitem_loop_defined _ _ _ _ _ _ ps) by done. simpl.
  destruct w as [h l]. simpl.
  destruct (getitem_frame other key h) as (r & msgs & Hr). by rewrite !Hr.
Qed.

(** Reads do not look at component lists. *)
Lemma interleave_loop_set_phases key e l self sources (out : list V) h lg lg' :
  (interleave_loop key e sources out (mkWorld (alter (set_phases l) self h) lg)).1
  = (interleave_loop key e sources out (mkWorld h lg')).1.
Proof.
  revert out. induction sources as [|s rest IH]; intros out; simpl; [done|].
  unfold mbind, M_bind, deref. simpl.
  destruct (decide (s = self)) as [->|Hs].
  - rewrite lookup_alter_eq. destruct (h !! self) as [p|]; simpl; [|done].
    destruct (store p !! key); [|done].
    change (owned (set_phases l p) e) with (owned p e)
      || (destruct e; simpl). all: apply IH.
  - rewrite lookup_alter_ne by done. destruct (h !! s) as [p|]; simpl; [|done].
    destruct (store p !! key); [apply IH|done].
Qed.

Lemma getitem_set_phases c key l self h lg lg' :
  (__getitem__ (V:=V) c key (mkWorld (alter (set_phases l) self h) lg)).1
  = (__getitem__ c key (mkWorld h lg')).1.
Proof.
  unfold __getitem__, _interleave_data, mbind, M_bind, deref, logger. simpl.
  destruct (decide (c = self)) as [->|Hc].
  - rewrite lookup_alter_eq. destruct (h !! self) as [o|]; simpl; [|done].
    destruct (store o !! key); [done|]. simpl.
    rewrite lookup_alter_eq. destruct (h !! self) as [o'|]; simpl; [|done].
    destruct (element_of key) as [e|]; [|done].
    replace (count (set_phases l o') e) with (count o' e) by (by destruct e).
    apply interleave_loop_set_phases.
  - rewrite lookup_alter_ne by done. destruct (h !! c) as [o|]; simpl; [|done].
    destruct (store o !! key); [done|]. simpl.
    rewrite lookup_alter_ne by done. destruct (h !! c) as [o'|]; simpl; [|done].
    destruct (element_of key) as [e|]; [|done].
    apply interleave_loop_set_phases.
Qed.

Lemma mole_fractions_set_phases l self h lg lg' comps :
  mole_fractions (V:=V) (mkWorld (alter (set_phases l) self h) lg) comps
  = mole_fractions (mkWorld h lg') comps.
Proof.
  induction comps as [|c comps IH]; [done|].
  by rewrite !mole_fractions_cons, getitem_set_phases with (lg' := lg'), IH.
Qed.

Lemma mole_fractions_app w l1 l2 :
  mole_fractions (V:=V) w (l1 ++ l2) = mole_fractions w l1 ++ mole_fractions w l2.
Proof. unfold mole_fractions. apply omap_app. Qed.

Lemma check_mixture_health_eval w self o :
  heap w !! self = Some o →
  (check_mixture_health (V:=V) self w).1
  = inr (foldl (λ s a, default s (broadcast fadd s a))
           (replicate (Np o) f0) (mole_fractions w (_phases o))).
Proof.
  intros Hself. destruct w as [h l]. simpl in Hself.
  unfold check_mixture_health, mbind, M_bind, deref. simpl. rewrite Hself.
  by destruct (mixture_loop_spec h (_phases o) l (replicate (Np o) f0)) as [l' ->].
Qed.

(** X6.  Registering a component adds its mole fractions to the mixture
    sum.  After a successful 'add', [check_mixture_health] answers the
    sum it answered before with the new component's array added to it;
    the sum is unchanged when the lookup on the new component fails or
    numpy cannot broadcast its array against the sum. *)
Theorem check_mixture_health_after_add (eq : Core V → Core V → exn + bool)
    w self phase o ph (cs : list (Core V)) :
  heap w !! self = Some o →
  heap w !! phase = Some ph →
  providers w (_phases o) = Some cs →
  name ph ∉ map name cs →
  ∃ w1 s,
    set_component eq self phase "add" w = (inr tt, w1)
    ∧ (check_mixture_health self w).1 = inr s
    ∧ (check_mixture_health self w1).1
      = inr (match (__getitem__ phase "pore.mole_fraction" w).1 with
             | inr a => default s (broadcast fadd s a)
             | inl _ => s
             end).
Proof.
  intros Hself Hph Hcs Hnew.
  rewrite (set_component_add eq w self phase o ph cs), decide_False by done.
  eexists _, _. split; [done|].
  rewrite (check_mixture_health_eval w self o Hself). split; [done|].
  destruct w as [h lg]. simpl in *.
  erewrite check_mixture_health_eval
    by (simpl; by rewrite lookup_alter_eq, Hself).
  simpl. f_equal.
  rewrite mole_fractions_set_phases with (lg' := lg).
  rewrite mole_fractions_app, foldl_app.
  rewrite (mole_fractions_cons _ phase []). 
  by destruct (__getitem__ phase "pore.mole_fraction" _).1.
Qed.

End ReadWriteFacts.

(** * Regeneration of a mixture *)
Section RegenerateFacts.
Import Base GenericPhase.
Context {V : Type} `{Num V} {K : Type}.
Variable Core_regenerate : K → oid → M V unit.

(** The parent's method recomputes properties: it leaves every
    component list as it is. *)
Hypothesis Core_regenerate_components : ∀ kwargs x w,
  same_components (heap w) (heap (Core_regenerate kwargs x w).2).

Lemma same_components_trans (h1 h2 h3 : gmap oid (Core V)) :
  same_components h1 h2 → same_components h2 h3 → same_components h1 h3.
Proof. intros H12 H23 i. by rewrite H23, H12. Qed.

Lemma same_components_lookup (h h' : gmap oid (Core V)) self o :
  same_components h h' → h !! self = Some o →
  ∃ o', h' !! self = Some o' ∧ _phases o' = _phases o.
Proof.
  intros Hsame Hself. specialize (Hsame self). rewrite Hself in Hsame.
  destruct (h' !! self) as [o'|]; [|done]. exists o'. split; [done|].
  by injection Hsame.
Qed.

Lemma postorder_same n (h h' : gmap oid (Core V)) self :
  same_components h h' → postorder n h' self = postorder n h self.
Proof.
  intros Hsame. revert self. induction n as [|n IH]; intros self; [done|]. simpl.
  destruct (h !! self) as [o|] eqn:Hself.
  - destruct (same_components_lookup h h' self o Hsame Hself) as (o' & -> & ->).
    f_equal. by apply list_bind_ext.
  - specialize (Hsame self). rewrite Hself in Hsame.
    by destruct (h' !! self).
Qed.

Lemma walkable_same n (h h' : gmap oid (Core V)) self :
  same_components h h' → walkable n h self → walkable n h' self.
Proof.
  intros Hsame. revert self. induction n as [|n IH]; intros self; [done|]. simpl.
  destruct (h !! self) as [o|] eqn:Hself; [|done].
  destruct (same_components_lookup h h' self o Hsame Hself) as (o' & -> & ->).
  intros [Hlen Hall]. split; [done|]. eapply Forall_impl; [exact Hall|]. auto.
Qed.

Lemma regenerate_each_components kwargs l w :
  same_components (heap w) (heap (regenerate_each Core_regenerate kwargs l w).2).
Proof using Core_regenerate_components.
  revert w. induction l as [|x l IH]; intros w; simpl; [done|].
  unfold mbind, M_bind.
  pose proof (Core_regenerate_components kwargs x w) as Hx.
  destruct (Core_regenerate kwargs x w) as [[e|u] w']; simpl in *; [done|].
  eapply same_components_trans; [exact Hx|apply IH].
Qed.

Lemma regenerate_each_app kwargs l1 l2 w :
  regenerate_each Core_regenerate kwargs (l1 ++ l2) w
  = match regenerate_each Core_regenerate kwargs l1 w with
    | (inr _, w') => regenerate_each Core_regenerate kwargs l2 w'
    | (inl e, w') => (inl e, w')
    end.
Proof.
  revert w. induction l1 as [|x l1 IH]; intros w; simpl; [done|].
  unfold mbind, M_bind.
  destruct (Core_regenerate kwargs x w) as [[e|u] w']; [done|]. apply IH.
Qed.

(** The loop over the components, from position [i] on, when each
    component is walked in post-order by the nested call. *)
Lemma for_items_walk n kwargs self o (w0 : World V) :
  heap w0 !! self = Some o →
  (∀ item w', item ∈ _phases o → same_components (heap w0) (heap w') →
     regenerate Core_regenerate n kwargs item w'
     = Some (regenerate_each Core_regenerate kwargs
               (postorder n (heap w0) item) w')) →
  ∀ k fuel i w',
    same_components (heap w0) (heap w') →
    i + k = length (_phases o) →
    k < fuel →
    for_items fuel (regenerate Core_regenerate n kwargs) self i w'
    = Some (regenerate_each Core_regenerate kwargs
              (drop i (_phases o) ≫= postorder n (heap w0)) w').
Proof using Core_regenerate_components.
  intros Hself Hitems. induction k as [|k IH]; intros fuel i w' Hsame Hi Hfuel;
    (destruct fuel as [|fuel]; [lia|]); simpl;
    destruct (same_components_lookup _ _ self o Hsame Hself) as (o' & -> & ->).
  - rewrite lookup_ge_None_2, drop_ge by lia. done.
  - destruct (lookup_lt_is_Some_2 (_phases o) i) as [item Hitem]; [lia|].
    rewrite Hitem, (drop_S _ _ _ Hitem), bind_cons, regenerate_each_app.
    rewrite Hitems by (done || by eapply list_elem_of_lookup_2).
    pose proof (regenerate_each_components kwargs
                  (postorder n (heap w0) item) w') as Hstep.
    destruct (regenerate_each Core_regenerate kwargs
                (postorder n (heap w0) item) w') as [[e|u] w'']; [done|].
    apply IH; [|lia|lia]. by eapply same_components_trans.
Qed.

(** X7.  [regenerate] walks the component tree in post-order.  When the
    parent's method leaves the component lists alone and the components
    below the phase form a tree within the budget, the call returns,
    and what it does is the parent's method applied, with the same
    keyword arguments, first to every component, each preceded by its
    own components and in registration order, and last to the phase
    itself; the first exception ends it, and nothing after it is
    regenerated. *)
Theorem regenerate_postorder n kwargs self (w : World V) :
  walkable n (heap w) self →
  regenerate Core_regenerate n kwargs self w
  = Some (regenerate_each Core_regenerate kwargs (postorder n (heap w) self) w).
Proof using Core_regenerate_components.
  revert self w. induction n as [|n IHn]; intros self w; [done|]. simpl.
  destruct (heap w !! self) as [o|] eqn:Hself; [|done]. intros [Hlen Hall].
  rewrite (for_items_walk n kwargs self o w Hself) with (k := length (_phases o));
    [| |done|done|done].
  - rewrite drop_0, regenerate_each_app.
    destruct (regenerate_each Core_regenerate kwargs
                (_phases o ≫= postorder n (heap w)) w) as [[e|u] w']; [done|].
    simpl. unfold mbind, M_bind.
    by destruct (Core_regenerate kwargs self w') as [[e|[]] w''].
  - intros item w' Hitem Hsame.
    rewrite IHn; [by rewrite (postorder_same n (heap w) (heap w'))|].
    apply (walkable_same n (heap w)); [done|].
    rewrite Forall_forall in Hall. by apply Hall.
Qed.

(** X8.  Nothing keeps a phase from being registered as its own
    component, and [regenerate] then never returns.  On a phase without
    components, 'add' of the phase itself succeeds; after it every
    nested call of [regenerate] starts with another one on the same
    phase, so no budget of nested calls is enough. *)
Theorem regenerate_self_component (eq : Core V → Core V → exn + bool)
    kwargs self o (w : World V) :
  heap w !! self = Some o →
  _phases o = [] →
  ∃ w1, set_component eq self self "add" w = (inr tt, w1)
        ∧ ∀ fuel, regenerate Core_regenerate fuel kwargs self w1 = None.
Proof.
  intros Hself Hnil.
  rewrite (set_component_add eq w self self o o []), decide_False;
    [| |done|done|by rewrite Hnil].
  - eexists. split; [done|]. rewrite Hnil. simpl.
    induction fuel as [|fuel IH]; [done|]. simpl.
    destruct fuel as [|fuel]; [done|]. simpl.
    rewrite lookup_alter_eq, Hself. simpl. simpl in IH. by rewrite IH.
  - simpl. apply not_elem_of_nil.
Qed.

End RegenerateFacts.

(** * Further compositions *)
Section CompositionFacts.
Import Base GenericPhase LinearSolver FickianDiffusion.
Context {V : Type} `{Num V}.
Implicit Types (w : World V) (o ph : Core V).

(** X9.  Removing a component and adding it again moves it to the end
    of the list.  When the registered names are pairwise distinct and
    objects compare by identity, 'remove' of a registered phase
    succeeds, the 'add' that follows succeeds as well, and the component
    list is the old one with the phase taken out of its place and put
    last; every other object, and the store of the phase's owner, are
    what they were. *)
Theorem set_component_remove_add (eq : Core V → Core V → exn + bool)
    w self phase o ph (cs : list (Core V)) l1 l2 :
  (∀ a b, eq a b = inr false) →
  heap w !! self = Some o →
  heap w !! phase = Some ph →
  providers w (_phases o) = Some cs →
  NoDup (map name cs) →
  _phases o = l1 ++ phase :: l2 →
  ∃ w1 w2,
    set_component eq self phase "remove" w = (inr tt, w1)
    ∧ set_component eq self phase "add" w1 = (inr tt, w2)
    ∧ heap w2 = alter (set_phases (l1 ++ l2 ++ [phase])) self (heap w)
    ∧ log w2 = log w.
Proof.
  intros Heq Hself Hph Hcs Hnodup Hl. destruct w as [h lg].
  pose proof Hcs as Hsplit. rewrite Hl in Hsplit.
  apply providers_app in Hsplit as (cs1 & cs2' & Hcseq & Hcs1 & Hcs2).
  change (phase :: l2) with ([phase] ++ l2) in Hcs2.
  apply providers_app in Hcs2 as (cph & cs2 & -> & Hcph & Hcs2).
  apply providers_singleton in Hcph as (ph' & -> & Hph').
  rewrite Hph in Hph'. injection Hph' as <-. subst cs.
  rewrite map_app in Hnodup. simpl in Hnodup.
  apply NoDup_app in Hnodup as (Hnd1 & Hdisj & Hnd2).
  apply NoDup_cons in Hnd2 as [Hnot2 Hnd2].
  assert (name ph ∉ map name cs1) as Hnot1.
  { intros Hin. apply (Hdisj _ Hin). apply list_elem_of_here. }
  assert (phase ∉ l1) as Hnotin.
  { intros Hin. apply Hnot1. apply (list_elem_of_fmap_2 name).
    by apply (providers_elem (mkWorld h lg) l1 cs1 phase ph). }
  rewrite (set_component_remove eq (mkWorld h lg) self phase o ph _ Hself Hph Hcs).
  rewrite decide_True
    by (rewrite !map_app; apply elem_of_app; right; apply list_elem_of_here).
  rewrite Hl, (list_remove_first eq (mkWorld h lg) phase ph l1 l2); [|done|].
  2:{ apply Forall_forall. intros y Hy. split; [by intros ->|].
      pose proof (providers_lookup (mkWorld h lg) _ _ Hcs1) as Hall.
      rewrite Forall_forall in Hall. destruct (Hall y Hy) as [cy Hcy]. eauto. }
  unfold update. simpl in *. eexists _, _. split; [done|].
  destruct (providers_set_phases h lg lg self (l1 ++ l2) (l1 ++ l2) (cs1 ++ cs2)
              (providers_app_2 _ _ _ _ _ Hcs1 Hcs2)) as (cs' & Hcs' & Hn').
  assert (providers (mkWorld h lg) [phase] = Some [ph]) as Hone.
  { unfold providers. simpl. by rewrite Hph. }
  destruct (providers_set_phases h lg lg self (l1 ++ l2) [phase] [ph] Hone)
    as (cph & Hcph & Hnph).
  destruct (providers_singleton _ _ _ Hcph) as (ph1 & -> & Hph1).
  simpl in Hnph. injection Hnph as Hname.
  rewrite (set_component_add eq _ self phase (set_phases (l1 ++ l2) o) ph1 cs');
    [|by simpl; rewrite lookup_alter_eq, Hself|done|done].
  rewrite decide_False.
  2:{ rewrite Hn', Hname, map_app. intros Hin.
      apply elem_of_app in Hin as [Hin|Hin]; [by apply Hnot1|by apply Hnot2]. }
  split; [reflexivity|]. simpl. split; [|done].
  apply map_eq. intros i. destruct (decide (i = self)) as [->|Hi].
  - rewrite !lookup_alter_eq, Hself. simpl. by rewrite <- app_assoc.
  - by rewrite !lookup_alter_ne.
Qed.

(** X10.  [calc_eff_diffusivity] never writes to the heap itself.  The
    heap it leaves is the heap the raw computation left: the normalised
    value goes to the algorithm object and to the caller, never into
    the phase, whether the call returns or raises. *)
Theorem calc_eff_diffusivity_frame (calc : Alg V → M V (pyval V))
    (self : Alg V) (clean : bool) w :
  heap (calc_eff_diffusivity calc self clean w).2 = heap (calc self w).2.
Proof.
  unfold calc_eff_diffusivity, mbind, M_bind.
  destruct (calc self w) as [[e|d] [h l]]; [done|]. simpl.
  destruct (getitem_frame (_fluid self) "pore.molar_density" h) as (r & msgs & Hr).
  rewrite Hr. destruct r as [e|rho]; [done|].
  unfold np_binop. destruct d as [d|ds]; [done|].
  by destruct (broadcast fdiv ds rho).
Qed.

End CompositionFacts.

Section MoreWitnesses.
Import Base GenericPhase Fixture.

Lemma set_component_add_remove_witness :
  ∃ w1, set_component never_equal 4 8 "add" lab = (inr tt, w1)
        ∧ component_names w1 4 = Some (map name [air; N2; O2] ++ [name Ar])
        ∧ set_component never_equal 4 8 "remove" w1 = (inr tt, lab).
Proof.
  apply (set_component_add_remove never_equal lab 4 8 gas Ar [air; N2; O2]);
    try reflexivity.
  by_evaluation.
Defined.

Lemma set_component_remove_namesake_witness :
  set_component never_equal 4 9 "remove" lab = (inl ValueError, lab).
Proof.
  apply (set_component_remove_namesake never_equal lab 4 9 gas N2_twin [air; N2; O2]);
    try reflexivity; by_evaluation.
Defined.

Lemma set_component_add_twice_witness :
  ∃ w1, set_component never_equal 4 8 "add" lab = (inr tt, w1)
        ∧ set_component never_equal 4 8 "add" w1
          = (inr tt, {| heap := heap w1;
                        log := log w1 ++ [(ERROR, "Phase already present")] |}).
Proof.
  apply (set_component_add_twice never_equal lab 4 8 gas Ar [air; N2; O2]);
    try reflexivity.
  by_evaluation.
Defined.

Lemma setitem_dropped_read_back_witness :
  (__getitem__ 1 "throat.diffusive_conductance"
     (__setitem__ store_value 1 "throat.diffusive_conductance"
        (Scalar (q 9 1)) world).2).1
  = (__getitem__ 1 "throat.diffusive_conductance" world).1.
Proof.
  apply (setitem_dropped_read_back store_value world 1 air
           "throat.diffusive_conductance" (Scalar (q 9 1)) [phys_a; phys_b]);
    try reflexivity.
  apply Exists_cons_hd. by eexists.
Defined.

Lemma check_mixture_health_after_add_witness :
  ∃ w1 s,
    set_component never_equal 4 8 "add" lab = (inr tt, w1)
    ∧ (check_mixture_health 4 lab).1 = inr s
    ∧ (check_mixture_health 4 w1).1
      = inr (match (__getitem__ 8 "pore.mole_fraction" lab).1 with
             | inr a => default s (broadcast fadd s a)
             | inl _ => s
             end).
Proof.
  apply (check_mixture_health_after_add never_equal lab 4 8 gas Ar [air; N2; O2]);
    try reflexivity.
  by_evaluation.
Defined.

Lemma recompute_components kwargs x (w : World Qc) :
  same_components (heap w) (heap (recompute kwargs x w).2).
Proof.
  intros i. unfold recompute, store_value, update. simpl.
  destruct (decide (i = x)) as [->|Hi].
  - rewrite lookup_alter_eq. by destruct (heap w !! x).
  - by rewrite lookup_alter_ne.
Qed.

Lemma regenerate_postorder_witness :
  regenerate recompute 5 (q 298 1) 4 world
  = Some (regenerate_each recompute (q 298 1) [1; 5; 6; 4] world).
Proof.
  apply (regenerate_postorder recompute recompute_components 5 (q 298 1) 4 world).
  vm_compute. repeat (split || constructor).
Defined.

Lemma regenerate_self_component_witness :
  ∃ w1, set_component never_equal 7 7 "add" world = (inr tt, w1)
        ∧ ∀ fuel, regenerate recompute fuel (q 298 1) 7 w1 = None.
Proof.
  apply (regenerate_self_component recompute never_equal (q 298 1) 7 CO2 world);
    reflexivity.
Defined.

Lemma set_component_remove_add_witness :
  ∃ w1 w2,
    set_component never_equal 4 5 "remove" lab = (inr tt, w1)
    ∧ set_component never_equal 4 5 "add" w1 = (inr tt, w2)
    ∧ heap w2 = alter (set_phases ([1] ++ [6] ++ [5])) 4 (heap lab)
    ∧ log w2 = log lab.
Proof.
  apply (set_component_remove_add never_equal lab 4 5 gas N2 [air; N2; O2] [1] [6]);
    try reflexivity.
  by_evaluation.
Defined.

End MoreWitnesses.
